(** * algebra-logica: the expression evaluator and its two helpers

    A shallow embedding of [src/utils/logicOperations.js]
    ([extractVariables], [generateCombinations]) and of
    [src/utils/expressionEvaluator.js] ([operators],
    [evaluateSubExpression], [evaluateExpression]).

    JavaScript strings are sequences of UTF-16 code units; every symbol
    the program handles (the operators included) lies in the Basic
    Multilingual Plane, so one symbol is one code unit.  The regular
    expressions of the source carry no [u] flag and therefore work on
    code units too. *)

From Stdlib Require Import String Ascii.
From Stdlib Require Import List NArith ZArith Bool Lia Arith.
From Stdlib Require Import Sorted Permutation.
Import ListNotations.

(* ================================================================= *)
(** ** JavaScript strings *)

Module JS.

Definition codeunit := N.
Definition jsstring := list codeunit.

(** An ASCII literal of the source, as code units. *)
Definition lit (s : string) : jsstring :=
  map N_of_ascii (list_ascii_of_string s).

Arguments lit s%_string.

(** [a === b] on strings. *)
Fixpoint str_eqb (a b : jsstring) : bool :=
  match a, b with
  | [], [] => true
  | x :: a', y :: b' => N.eqb x y && str_eqb a' b'
  | _, _ => false
  end.

(** [w.startsWith(needle)] and [w.includes(needle)]. *)
Fixpoint startsWith (needle w : jsstring) : bool :=
  match needle, w with
  | [], _ => true
  | n :: ns, c :: cs => N.eqb n c && startsWith ns cs
  | _ :: _, [] => false
  end.

Fixpoint includes (w needle : jsstring) : bool :=
  startsWith needle w ||
  match w with
  | [] => false
  | _ :: r => includes r needle
  end.

(** The default comparison of [Array.prototype.sort]: strings are
    compared code unit by code unit. *)
Definition str_compare : jsstring -> jsstring -> comparison :=
  list_compare N.compare.

Definition str_leb (a b : jsstring) : bool :=
  match str_compare a b with Gt => false | _ => true end.

(** [arr.sort()]: the order of the result is fixed by the comparison
    (the sort is stable); insertion sort computes it. *)
Fixpoint sort_insert (x : jsstring) (l : list jsstring) : list jsstring :=
  match l with
  | [] => [x]
  | y :: l' => if str_leb y x then y :: sort_insert x l' else x :: l
  end.

Definition sort (l : list jsstring) : list jsstring :=
  fold_left (fun acc x => sort_insert x acc) l [].

(** [[...new Set(arr)]]: first occurrences, in insertion order. *)
Definition set_add (acc : list jsstring) (x : jsstring) : list jsstring :=
  if existsb (str_eqb x) acc then acc else acc ++ [x].

Definition dedupe (l : list jsstring) : list jsstring :=
  fold_left set_add l [].

(** Code units of the symbols of the program. *)
Definition c_lparen : codeunit := 40%N.   (* ( *)
Definition c_rparen : codeunit := 41%N.   (* ) *)
Definition c_0 : codeunit := 48%N.        (* 0 *)
Definition c_1 : codeunit := 49%N.        (* 1 *)
Definition c_not : codeunit := 172%N.     (* U+00AC *)
Definition c_and : codeunit := 8743%N.    (* U+2227 *)
Definition c_or : codeunit := 8744%N.     (* U+2228 *)
Definition c_nand : codeunit := 8892%N.   (* U+22BC *)
Definition c_nor : codeunit := 8893%N.    (* U+22BD *)
Definition c_xor : codeunit := 8853%N.    (* U+2295 *)
Definition c_xnor : codeunit := 8596%N.   (* U+2194 *)
Definition c_impl : codeunit := 8594%N.   (* U+2192 *)

(** 32-bit integer operators: [ToInt32], [a << count], [a & b], and
    the truthiness of a number under [!!]. *)
Definition toInt32 (z : Z) : Z := ((z + 2 ^ 31) mod 2 ^ 32 - 2 ^ 31)%Z.

Definition shl (a count : Z) : Z :=
  toInt32 (Z.shiftl (toInt32 a) (count mod 32)).

Definition band (a b : Z) : Z := Z.land (toInt32 a) (toInt32 b).

Definition truthy (z : Z) : bool := negb (Z.eqb z 0).

End JS.

Import JS.

(* ================================================================= *)
(** ** logicOperations.js *)

(** The fixed alphabet of [extractVariables]. *)
Definition variables : list jsstring :=
  [lit "p"; lit "q"; lit "r"; lit "x"; lit "y"; lit "z"].

(** [[...new Set(variables.filter(v => expression.includes(v)))].sort()] *)
Definition extractVariables (expression : jsstring) : list jsstring :=
  sort (dedupe (filter (fun v => includes expression v) variables)).

(** The inner loop of [generateCombinations]:
    [for (let j = numVariables - 1; j >= 0; j--)
       combination.unshift(!!(i & (1 << j)))].
    [count] is [j + 1]; [unshift] puts the new value in front. *)
Fixpoint combination_loop (i : Z) (count : nat) (combination : list bool)
  : list bool :=
  match count with
  | O => combination
  | S j =>
      combination_loop i j
        (truthy (band i (shl 1 (Z.of_nat j))) :: combination)
  end.

(** The outer loop: [for (let i = 0; i < totalRows; i++)], with
    [remaining = totalRows - i]; [push] appends the row. *)
Fixpoint rows_loop (numVariables : nat) (remaining : nat) (i : Z)
  (combinations : list (list bool)) : list (list bool) :=
  match remaining with
  | O => combinations
  | S k =>
      rows_loop numVariables k (i + 1)
        (combinations ++ [combination_loop i numVariables []])
  end.

Definition generateCombinations (vars : list jsstring) : list (list bool) :=
  let numVariables := length vars in
  let totalRows := 2 ^ numVariables in
  rows_loop numVariables totalRows 0%Z [].

(** What the documentation of [generateCombinations] describes: row [i]
    is the binary numeral of [i] on [n] bits, most significant bit
    first. *)
Definition msb_first_row (n : nat) (i : Z) : list bool :=
  map (fun k => Z.testbit i (Z.of_nat (n - 1 - k))) (seq 0 n).

(** What the loops compute: bit [k] of [i] at position [k]. *)
Definition lsb_first_row (n : nat) (i : Z) : list bool :=
  map (fun k => Z.testbit i (Z.of_nat k)) (seq 0 n).

(* ================================================================= *)
(** ** expressionEvaluator.js: operators and trace records *)

(** The binary operators, in the order of [operatorOrder]. *)
Inductive binop := AND | OR | NAND | NOR | XOR | XNOR | IMPLICATION.

Definition symbol (op : binop) : codeunit :=
  match op with
  | AND => c_and
  | OR => c_or
  | NAND => c_nand
  | NOR => c_nor
  | XOR => c_xor
  | XNOR => c_xnor
  | IMPLICATION => c_impl
  end.

(** The [operators] table: the unary entry and the binary ones. *)
Definition operators_not (a : bool) : bool := negb a.

Definition operators (op : binop) (a b : bool) : bool :=
  match op with
  | AND => a && b
  | OR => a || b
  | NAND => negb (a && b)
  | NOR => negb (a || b)
  | XOR => negb (Bool.eqb a b)
  | XNOR => Bool.eqb a b
  | IMPLICATION => negb a || b
  end.

Definition operatorOrder : list binop :=
  [AND; OR; NAND; NOR; XOR; XNOR; IMPLICATION].

(** The character class [[∧∨⊼⊽⊕↔→]]. *)
Definition is_binop (c : codeunit) : bool :=
  existsb (fun op => N.eqb c (symbol op)) operatorOrder.

Definition operatorNames (op : binop) : jsstring :=
  match op with
  | AND => lit "AND"
  | OR => lit "OR"
  | NAND => lit "NAND"
  | NOR => lit "NOR"
  | XOR => lit "XOR"
  | XNOR => lit "BICONDICIONAL"
  | IMPLICATION => lit "IMPLICACI" ++ [211%N] ++ lit "N"
  end.

(** One entry of a step array: [{operation, description, result}] and,
    for a resolved parenthesis, [subSteps]. *)
#[local] Unset Elimination Schemes.
Inductive Step : Type :=
  mkStep (operation description stepResult : jsstring)
         (subSteps : option (list Step)).
#[local] Set Elimination Schemes.

Definition operation (s : Step) : jsstring :=
  match s with mkStep o _ _ _ => o end.
Definition description (s : Step) : jsstring :=
  match s with mkStep _ d _ _ => d end.
Definition stepResult (s : Step) : jsstring :=
  match s with mkStep _ _ r _ => r end.
Definition subSteps (s : Step) : option (list Step) :=
  match s with mkStep _ _ _ ss => ss end.

(** A step array is [null] when no trace is requested: [if (steps)
    steps.push(...)].  The passes below return the records their
    callbacks push, in order; [push_all] appends them to the array. *)
Definition push_all (steps : option (list Step)) (pushed : list Step)
  : option (list Step) :=
  match steps with
  | Some l => Some (l ++ pushed)
  | None => None
  end.

(** [[01]], [value === '1'], [res ? '1' : '0'], [val ? 'V' : 'F']. *)
Definition is_bit (c : codeunit) : bool := N.eqb c c_0 || N.eqb c c_1.
Definition bit_val (c : codeunit) : bool := N.eqb c c_1.
Definition bit_char (b : bool) : codeunit := if b then c_1 else c_0.
Definition vf (b : bool) : jsstring := if b then lit "V" else lit "F".

(** A loop of the model counts its iterations down from [fuel] and
    yields [None] when it runs out. *)
Definition bind {A B : Type} (m : option A) (k : A -> option B) : option B :=
  match m with
  | Some a => k a
  | None => None
  end.

Notation "' p <- m ;; k" := (bind m (fun p => k))
  (at level 61, p pattern, m at next level, right associativity).

(* ================================================================= *)
(** ** evaluateSubExpression *)

(** The record pushed by the callback of [/¬([01])/g]. *)
Definition not_step (value : codeunit) : Step :=
  let val := bit_val value in
  let res := operators_not val in
  mkStep [c_not; value]
         ([c_not] ++ vf val ++ lit " = " ++ vf res)
         [bit_char res] None.

(** [result.replace(/¬([01])/g, callback)]: scanning from the left, a
    [¬] followed by a digit is a match, consumed whole; any other
    character is copied. *)
Fixpoint not_pass (w : jsstring) : jsstring * list Step :=
  match w with
  | [] => ([], [])
  | c :: r =>
      match r with
      | value :: r' =>
          if N.eqb c c_not && is_bit value then
            let (out, pushed) := not_pass r' in
            (bit_char (operators_not (bit_val value)) :: out,
             not_step value :: pushed)
          else
            let (out, pushed) := not_pass r in (c :: out, pushed)
      | [] => ([c], [])
      end
  end.

(** [while (result.includes('¬')) { ...; if (prevResult === result) break; }] *)
Fixpoint not_loop (fuel : nat) (res : jsstring)
  : option (jsstring * list Step) :=
  if negb (includes res [c_not]) then Some (res, [])
  else
    match fuel with
    | O => None
    | S fuel' =>
        let prevResult := res in
        let (res', pushed) := not_pass res in
        if str_eqb prevResult res' then Some (res', pushed)
        else
          ' (final, more) <- not_loop fuel' res' ;;
          Some (final, pushed ++ more)
    end.

(** The record pushed by the callback of [([01])op([01])]. *)
Definition op_step (op : binop) (a b : codeunit) : Step :=
  let valA := bit_val a in
  let valB := bit_val b in
  let res := operators op valA valB in
  mkStep [a; symbol op; b]
         (vf valA ++ lit " " ++ [symbol op] ++ lit " " ++ vf valB
            ++ lit " = " ++ vf res ++ lit " (" ++ operatorNames op ++ lit ")")
         [bit_char res] None.

(** [result.replace(regex, callback)] with
    [regex = new RegExp(`([01])\\${operator}([01])`, 'g')]. *)
Fixpoint op_pass (op : binop) (w : jsstring) : jsstring * list Step :=
  match w with
  | [] => ([], [])
  | a :: r =>
      match r with
      | o :: b :: r' =>
          if is_bit a && N.eqb o (symbol op) && is_bit b then
            let (out, pushed) := op_pass op r' in
            (bit_char (operators op (bit_val a) (bit_val b)) :: out,
             op_step op a b :: pushed)
          else
            let (out, pushed) := op_pass op r in (a :: out, pushed)
      | _ =>
          let (out, pushed) := op_pass op r in (a :: out, pushed)
      end
  end.

(** [result.match(regex)] is not [null]. *)
Fixpoint has_match (op : binop) (w : jsstring) : bool :=
  match w with
  | [] => false
  | a :: r =>
      match r with
      | o :: b :: _ =>
          (is_bit a && N.eqb o (symbol op) && is_bit b) || has_match op r
      | _ => false
      end
  end.

(** [while (result.match(regex)) { ...; if (prevResult === result) break; }] *)
Fixpoint op_loop (fuel : nat) (op : binop) (res : jsstring)
  : option (jsstring * list Step) :=
  if negb (has_match op res) then Some (res, [])
  else
    match fuel with
    | O => None
    | S fuel' =>
        let prevResult := res in
        let (res', pushed) := op_pass op res in
        if str_eqb prevResult res' then Some (res', pushed)
        else
          ' (final, more) <- op_loop fuel' op res' ;;
          Some (final, pushed ++ more)
    end.

(** [for (const operator of operatorOrder) { ... }] *)
Fixpoint operators_loop (fuel : nat) (ops : list binop) (res : jsstring)
  : option (jsstring * list Step) :=
  match ops with
  | [] => Some (res, [])
  | op :: ops' =>
      ' (res1, pushed) <- op_loop fuel op res ;;
      ' (final, more) <- operators_loop fuel ops' res1 ;;
      Some (final, pushed ++ more)
  end.

(** The working string [result] of [evaluateSubExpression] when the
    function reaches its [return], with the records pushed on the way. *)
Definition reduceSubExpression (fuel : nat) (expr : jsstring)
  : option (jsstring * list Step) :=
  ' (res0, pushed) <- not_loop fuel expr ;;
  ' (final, more) <- operators_loop fuel operatorOrder res0 ;;
  Some (final, pushed ++ more).

(** [evaluateSubExpression(expr, steps)]: the boolean returned and the
    array [steps] after the call. *)
Definition evaluateSubExpression (fuel : nat) (expr : jsstring)
  (steps : option (list Step)) : option (bool * option (list Step)) :=
  ' (final, pushed) <- reduceSubExpression fuel expr ;;
  Some (str_eqb final [c_1], push_all steps pushed).

(* ================================================================= *)
(** ** evaluateExpression *)

(** The keys of [values]: the variable symbols of the application
    ([VARIABLES] in constants.js). *)
Inductive Var := Vp | Vq | Vr | Vx | Vy | Vz.

Definition name (v : Var) : codeunit :=
  match v with
  | Vp => 112%N
  | Vq => 113%N
  | Vr => 114%N
  | Vx => 120%N
  | Vy => 121%N
  | Vz => 122%N
  end.

Definition Var_eqb (a b : Var) : bool := N.eqb (name a) (name b).

(** [Object.entries(values)]: the entries in insertion order. *)
Definition Assignment := list (Var * bool).

(** [values[v] = b]: an existing key keeps its place, a new key goes
    last. *)
Fixpoint assign (values : Assignment) (v : Var) (b : bool) : Assignment :=
  match values with
  | [] => [(v, b)]
  | (u, c) :: rest =>
      if Var_eqb u v then (u, b) :: rest else (u, c) :: assign rest v b
  end.

Definition has_key (values : Assignment) (v : Var) : bool :=
  existsb (fun e => Var_eqb (fst e) v) values.

(** [\w] of a regular expression without flags: [[A-Za-z0-9_]]. *)
Definition is_word (c : codeunit) : bool :=
  ((65 <=? c) && (c <=? 90) || (97 <=? c) && (c <=? 122)
   || (48 <=? c) && (c <=? 57) || (c =? 95))%N.

(** [result.replace(new RegExp(`\\b${variable}\\b`, 'g'), digit)] for a
    one-letter variable: the letter is replaced where the character
    before it and the character after it are not word characters (or
    do not exist).  [prev_word] tells whether the character before the
    current position is a word character. *)
Fixpoint replace_variable (prev_word : bool) (variable digit : codeunit)
  (w : jsstring) : jsstring :=
  match w with
  | [] => []
  | c :: r =>
      let next_word := match r with [] => false | c' :: _ => is_word c' end in
      (if N.eqb c variable && negb prev_word && negb next_word
       then digit else c)
        :: replace_variable (is_word c) variable digit r
  end.

Definition original_step (expression : jsstring) : Step :=
  mkStep (lit "Expresi" ++ [243%N] ++ lit "n original")
         expression expression None.

Definition substitution_step (variable : Var) (value : bool)
  (res : jsstring) : Step :=
  mkStep (lit "Sustituci" ++ [243%N] ++ lit "n: " ++ [name variable])
         ([name variable] ++ lit " = " ++ vf value)
         res None.

Definition substituted_step (res : jsstring) : Step :=
  mkStep (lit "Sustituci" ++ [243%N] ++ lit "n de variables")
         (lit "Expresi" ++ [243%N] ++ lit "n con valores: " ++ res)
         res None.

Definition paren_step (subExpr : jsstring) (subResult : bool)
  (subSteps : option (list Step)) : Step :=
  mkStep (lit "Evaluaci" ++ [243%N] ++ lit "n: "
            ++ [c_lparen] ++ subExpr ++ [c_rparen])
         (lit "Par" ++ [233%N] ++ lit "ntesis: " ++ vf subResult)
         [bit_char subResult] subSteps.

(** [Object.entries(values).forEach(([variable, value]) => { ... })]:
    the working string after all entries, and the records that the
    loop pushes onto [substitutionSteps] when a trace is requested. *)
Fixpoint substitute_loop (values : Assignment) (res : jsstring)
  : jsstring * list Step :=
  match values with
  | [] => (res, [])
  | (variable, value) :: rest =>
      let oldResult := res in
      let res' := replace_variable false (name variable) (bit_char value) res in
      let pushed :=
        if negb (str_eqb oldResult res')
        then [substitution_step variable value res'] else [] in
      let (final, more) := substitute_loop rest res' in
      (final, pushed ++ more)
  end.

(** [result.replace(/\(([^()]+)\)/g, callback)].  A match is a [(], a
    non-empty run of characters other than parentheses, and a [)].
    The scan keeps in [pending] the characters read since a [(] that
    may still open a match (most recent first): a [)] after a
    non-empty run completes the match, another [(] or the end of the
    string abandons the candidate, whose characters are then copied. *)
Definition flush (pending : option jsstring) : jsstring :=
  match pending with
  | Some acc => c_lparen :: rev acc
  | None => []
  end.

Fixpoint paren_pass (fuel : nat) (includeSteps : bool)
  (pending : option jsstring) (w : jsstring)
  : option (jsstring * list Step) :=
  match w with
  | [] => Some (flush pending, [])
  | c :: r =>
      if N.eqb c c_lparen then
        ' (out, pushed) <- paren_pass fuel includeSteps (Some []) r ;;
        Some (flush pending ++ out, pushed)
      else if N.eqb c c_rparen then
        match pending with
        | Some ((_ :: _) as acc) =>
            let subExpr := rev acc in
            let subSteps := if includeSteps then Some [] else None in
            ' (subResult, subSteps') <-
                evaluateSubExpression fuel subExpr subSteps ;;
            ' (out, pushed) <- paren_pass fuel includeSteps None r ;;
            Some (bit_char subResult :: out,
                  paren_step subExpr subResult subSteps' :: pushed)
        | _ =>
            ' (out, pushed) <- paren_pass fuel includeSteps None r ;;
            Some (flush pending ++ c :: out, pushed)
        end
      else
        match pending with
        | Some acc => paren_pass fuel includeSteps (Some (c :: acc)) r
        | None =>
            ' (out, pushed) <- paren_pass fuel includeSteps None r ;;
            Some (c :: out, pushed)
        end
  end.

(** [while (result.includes('(')) { ...; if (oldResult === result) break; }];
    [count] bounds the iterations of this loop, [fuel] those of the
    loops of the calls to [evaluateSubExpression]. *)
Fixpoint paren_loop (fuel count : nat) (includeSteps : bool) (res : jsstring)
  : option (jsstring * list Step) :=
  if negb (includes res [c_lparen]) then Some (res, [])
  else
    match count with
    | O => None
    | S count' =>
        let oldResult := res in
        ' (res', pushed) <- paren_pass fuel includeSteps None res ;;
        if str_eqb oldResult res' then Some (res', pushed)
        else
          ' (final, more) <- paren_loop fuel count' includeSteps res' ;;
          Some (final, pushed ++ more)
    end.

(** The object returned by [evaluateExpression]; [substitutionSteps]
    and [expression] are present only when a trace is requested. *)
Record EvaluationResult := mkResult {
  result : bool;
  steps : list Step;
  substitutionSteps : option (list Step);
  expression : option jsstring
}.

Definition array (steps : option (list Step)) : list Step :=
  match steps with
  | Some l => l
  | None => []
  end.

(** [evaluateExpression(expression, values, includeSteps)].  An absent
    expression ([undefined], [null]) is [None]. *)
Definition evaluateExpression (fuel : nat) (expr : option jsstring)
  (values : Assignment) (includeSteps : bool) : option EvaluationResult :=
  match expr with
  | None | Some [] => Some (mkResult false [] None None)
  | Some e =>
      let steps0 := if includeSteps then Some [] else None in
      let substitutionSteps0 :=
        if includeSteps then Some [original_step e] else None in
      let (res1, pushedS) := substitute_loop values e in
      let substitutionSteps1 := push_all substitutionSteps0 pushedS in
      let steps1 := push_all steps0 [substituted_step res1] in
      ' (res2, pushedP) <- paren_loop fuel fuel includeSteps res1 ;;
      let steps2 := push_all steps1 pushedP in
      ' (finalResult, steps3) <- evaluateSubExpression fuel res2 steps2 ;;
      if includeSteps then
        Some (mkResult finalResult (array steps3) substitutionSteps1 (Some e))
      else
        Some (mkResult finalResult [] None None)
  end.

(* ================================================================= *)
(** ** expressionValidator.js *)

(** The loop over the characters with [parenthesesCount]. *)
Fixpoint balanced_from (parenthesesCount : Z) (w : jsstring) : bool :=
  match w with
  | [] => Z.eqb parenthesesCount 0
  | c :: r =>
      let n1 := if N.eqb c c_lparen then (parenthesesCount + 1)%Z
                else parenthesesCount in
      let n2 := if N.eqb c c_rparen then (n1 - 1)%Z else n1 in
      if Z.ltb n2 0 then false else balanced_from n2 r
  end.

(** [/[∧∨⊼⊽⊕↔→]{2,}/.test(expression)] *)
Fixpoint adjacent_binops (w : jsstring) : bool :=
  match w with
  | a :: r =>
      match r with
      | b :: _ => is_binop a && is_binop b || adjacent_binops r
      | [] => false
      end
  | [] => false
  end.

(** [/^[∧∨⊼⊽⊕↔→]/.test(expression)] and [/[∧∨⊼⊽⊕↔→¬]$/.test(expression)] *)
Definition starts_with_binop (w : jsstring) : bool :=
  match w with
  | c :: _ => is_binop c
  | [] => false
  end.

Definition ends_with_operator (w : jsstring) : bool :=
  match rev w with
  | c :: _ => is_binop c || N.eqb c c_not
  | [] => false
  end.

Definition validateExpression (expr : option jsstring) : bool :=
  match expr with
  | None | Some [] => false
  | Some e =>
      if negb (balanced_from 0 e) then false
      else if adjacent_binops e then false
      else if starts_with_binop e then false
      else if ends_with_operator e then false
      else true
  end.

(* ================================================================= *)
(** ** Inputs used in the statements below *)

Definition expr_p_space_impl_q : jsstring :=
  lit "p " ++ [c_impl] ++ lit " q".                  (* "p → q" *)
Definition expr_p_or_q_and_r : jsstring :=
  lit "p " ++ [c_or] ++ lit " (q " ++ [c_and] ++ lit " r)".  (* "p ∨ (q ∧ r)" *)
Definition expr_p_and_p_or_q : jsstring :=
  lit "p " ++ [c_and] ++ lit " p " ++ [c_or] ++ lit " q".    (* "p ∧ p ∨ q" *)
Definition expr_not_paren_p : jsstring :=
  [c_not] ++ lit "(p)".                              (* "¬(p)" *)

(* ================================================================= *)
(** ** Notions used in the statements *)

(** [v] occurs in [e] as a substring. *)
Definition substring (v e : jsstring) : Prop :=
  exists l r, e = l ++ v ++ r.

(** The order of [sort] on strings. *)
Definition str_le (a b : jsstring) : Prop := str_compare a b <> Gt.
Definition str_lt (a b : jsstring) : Prop := str_compare a b = Lt.


(** The number of [(] in a string. *)
Definition count_open (w : jsstring) : nat :=
  length (filter (N.eqb c_lparen) w).

(** [c] occurs in the expression; nothing occurs in an absent one. *)
Definition occurs (c : codeunit) (expr : option jsstring) : Prop :=
  match expr with
  | Some e => In c e
  | None => False
  end.

(** The working string once the entries of [values] are substituted. *)
Definition substituted (values : Assignment) (e : jsstring) : jsstring :=
  fst (substitute_loop values e).

(** The substitution-phase records as the specification words them:
    one record per entry of the assignment whose replacement changed
    the working string, holding the variable, its value and the string
    after that replacement. *)
Definition variable_steps (values : Assignment) (e : jsstring) : list Step :=
  flat_map
    (fun k =>
       match nth_error values k with
       | Some (v, b) =>
           let before := substituted (firstn k values) e in
           let after := substituted (firstn (S k) values) e in
           if str_eqb before after then [] else [substitution_step v b after]
       | None => []
       end)
    (seq 0 (length values)).

(** The list that the specification describes for the substitution
    phase: the records of the variables, then the record of the string
    with all variables replaced, and nothing else. *)
Definition described_substitutionSteps (values : Assignment) (e : jsstring)
  : list Step :=
  variable_steps values e ++ [substituted_step (substituted values e)].

(** "A variable of the expression without an entry in the assignment
    makes the result false", for one expression and one assignment. *)
Definition unassigned_gives_false (fuel : nat) (e : jsstring)
  (values : Assignment) : Prop :=
  forall v, In (name v) e -> has_key values v = false ->
    exists r, evaluateExpression fuel (Some e) values false = Some r
              /\ result r = false.

(** "The substitution-phase list is the described one", for one traced
    call. *)
Definition substitutionSteps_as_described (fuel : nat) (e : jsstring)
  (values : Assignment) : Prop :=
  exists r, evaluateExpression fuel (Some e) values true = Some r
            /\ substitutionSteps r
               = Some (described_substitutionSteps values e).

(* ================================================================= *)
(** ** Resolution of operators, as the specification words it *)

(** One [¬] is resolved: the [¬] and the digit that follows it are
    replaced by the one-character result; [tr] lists the records of
    the replacements in the order they are made. *)
Inductive not_resolves : jsstring -> jsstring -> list Step -> Prop :=
| not_resolves_done (w : jsstring) : not_resolves w w []
| not_resolves_step (l : jsstring) (d : codeunit) (r w' : jsstring)
    (tr : list Step) :
    is_bit d = true ->
    not_resolves (l ++ bit_char (operators_not (bit_val d)) :: r) w' tr ->
    not_resolves (l ++ c_not :: d :: r) w' (not_step d :: tr).

(** One [<digit><operator><digit>] occurrence is replaced by its
    one-character result. *)
Inductive op_resolves (op : binop)
  : jsstring -> jsstring -> list Step -> Prop :=
| op_resolves_done (w : jsstring) : op_resolves op w w []
| op_resolves_step (l : jsstring) (a b : codeunit) (r w' : jsstring)
    (tr : list Step) :
    is_bit a = true -> is_bit b = true ->
    op_resolves op
      (l ++ bit_char (operators op (bit_val a) (bit_val b)) :: r) w' tr ->
    op_resolves op (l ++ a :: symbol op :: b :: r) w' (op_step op a b :: tr).

(** No [¬] followed by a digit is left; no [<digit>op<digit>] is left. *)
Definition no_not_redex (w : jsstring) : Prop :=
  forall l d r, w = l ++ c_not :: d :: r -> is_bit d = false.

Definition no_op_redex (op : binop) (w : jsstring) : Prop :=
  forall l a b r,
    w = l ++ a :: symbol op :: b :: r -> is_bit a && is_bit b = false.

(** The operators of [ops] are resolved one after the other: all the
    replacements for the first operator, after which [Q] holds of that
    operator and the string reached, then those for the next one. *)
Inductive phases (Q : binop -> jsstring -> Prop)
  : list binop -> jsstring -> jsstring -> list Step -> Prop :=
| phases_nil (w : jsstring) : phases Q [] w w []
| phases_cons (op : binop) (ops : list binop) (w w1 w2 : jsstring)
    (t1 t2 : list Step) :
    op_resolves op w w1 t1 ->
    Q op w1 ->
    phases Q ops w1 w2 t2 ->
    phases Q (op :: ops) w w2 (t1 ++ t2).

(** A flat expression: operands, each a digit under any number of
    [¬], separated by binary operators.  [operand] tells whether an
    operand is expected next. *)
Fixpoint flat_from (operand : bool) (w : jsstring) : bool :=
  match w with
  | [] => negb operand
  | c :: r =>
      if operand then
        if N.eqb c c_not then flat_from true r
        else is_bit c && flat_from false r
      else is_binop c && flat_from true r
  end.

Definition flat_wf (w : jsstring) : bool := flat_from true w.

(* ================================================================= *)
(** ** Notions used in the further properties *)

(** Whether the first character of a string is a word character. *)
Definition head_word (w : jsstring) : bool :=
  match w with
  | [] => false
  | c :: _ => is_word c
  end.

(** What a caller reads off a result besides [substitutionSteps]. *)
Definition outcome (r : EvaluationResult)
  : bool * list Step * option jsstring :=
  (result r, steps r, expression r).

(** The string in which every [¬] that stands before a digit, or
    before a [¬] that itself resolves to a digit, is applied: the
    closed form of the first loop of [evaluateSubExpression]. *)
Fixpoint resolve_nots (w : jsstring) : jsstring :=
  match w with
  | [] => []
  | c :: r =>
      let r' := resolve_nots r in
      if N.eqb c c_not then
        match r' with
        | d :: r'' =>
            if is_bit d then bit_char (operators_not (bit_val d)) :: r''
            else c :: r'
        | [] => [c]
        end
      else c :: r'
  end.

(* ================================================================= *)
(** ** Formulas and their fully parenthesised text *)

(** Propositional formulas over the variables and the operators of
    the application, with the constants ['0'] and ['1']. *)
Inductive formula :=
| FConst (b : bool)
| FVar (v : Var)
| FNot (f : formula)
| FBin (op : binop) (l r : formula).

(** The text of a formula: a binary connective is written between
    parentheses, nothing else is, and there are no blanks. *)
Fixpoint print (f : formula) : jsstring :=
  match f with
  | FConst b => [bit_char b]
  | FVar v => [name v]
  | FNot g => c_not :: print g
  | FBin op l r =>
      [c_lparen] ++ print l ++ [symbol op] ++ print r ++ [c_rparen]
  end.

(** The same, the outermost connective written without parentheses. *)
Definition print_top (f : formula) : jsstring :=
  match f with
  | FBin op l r => print l ++ [symbol op] ++ print r
  | _ => print f
  end.

(** [values[v]]: the first entry for [v]. *)
Definition lookup (values : Assignment) (v : Var) : option bool :=
  option_map snd (find (fun e => Var_eqb (fst e) v) values).

(** The truth value of a formula by the tables of [operators]. *)
Fixpoint denote (values : Assignment) (f : formula) : bool :=
  match f with
  | FConst b => b
  | FVar v => match lookup values v with Some b => b | None => false end
  | FNot g => operators_not (denote values g)
  | FBin op l r => operators op (denote values l) (denote values r)
  end.

(** Every variable of the formula has an entry in the assignment. *)
Fixpoint assigned (values : Assignment) (f : formula) : bool :=
  match f with
  | FConst _ => true
  | FVar v => has_key values v
  | FNot g => assigned values g
  | FBin _ l r => assigned values l && assigned values r
  end.

(** The formula with one variable replaced by a constant, and with the
    entries of an assignment replaced one after the other. *)
Fixpoint replace1 (v : Var) (b : bool) (f : formula) : formula :=
  match f with
  | FConst c => FConst c
  | FVar u => if Var_eqb u v then FConst b else FVar u
  | FNot g => FNot (replace1 v b g)
  | FBin op l r => FBin op (replace1 v b l) (replace1 v b r)
  end.

Definition instantiate (values : Assignment) (f : formula) : formula :=
  fold_left (fun g e => replace1 (fst e) (snd e) g) values f.

(** No binary connective; the nesting depth of the parentheses. *)
Fixpoint bin_free (f : formula) : bool :=
  match f with
  | FBin _ _ _ => false
  | FNot g => bin_free g
  | _ => true
  end.

Fixpoint depth (f : formula) : nat :=
  match f with
  | FBin _ l r => S (Nat.max (depth l) (depth r))
  | FNot g => depth g
  | _ => 0
  end.

(** One pass over the parentheses, on formulas: every connective whose
    operands have no connective becomes its value. *)
Fixpoint collapse (f : formula) : formula :=
  match f with
  | FBin op l r =>
      if bin_free l && bin_free r then FConst (denote [] f)
      else FBin op (collapse l) (collapse r)
  | FNot g => FNot (collapse g)
  | _ => f
  end.

(** A working string as a sequence of formulas and of text without
    parentheses between them. *)
Inductive item :=
| Text (t : jsstring)
| Form (f : formula).

Definition print_item (i : item) : jsstring :=
  match i with
  | Text t => t
  | Form f => print f
  end.

Definition print_items (l : list item) : jsstring :=
  flat_map print_item l.

Definition collapse_item (i : item) : item :=
  match i with
  | Text t => Text t
  | Form f => Form (collapse f)
  end.

Definition item_depth (i : item) : nat :=
  match i with
  | Text _ => 0
  | Form f => depth f
  end.

(** The output string of a pass over the parentheses. *)
Definition paren_pass_string (fuel : nat) (pending : option jsstring)
  (w : jsstring) : option jsstring :=
  option_map fst (paren_pass fuel false pending w).

(** A formula without variables. *)
Definition closed (f : formula) : bool := assigned [] f.
(* ================================================================= *)
(** * Properties *)

(* ================================================================= *)
(** ** String primitives *)

Lemma str_eqb_eq (a b : jsstring) : str_eqb a b = true <-> a = b.
Proof.
  revert b; induction a as [|x a IH]; intros [|y b]; simpl;
    try (split; [discriminate | congruence]); try tauto.
  rewrite andb_true_iff, N.eqb_eq, IH. split.
  - intros [-> ->]; reflexivity.
  - intros H; injection H; auto.
Qed.

Lemma str_eqb_refl (a : jsstring) : str_eqb a a = true.
Proof. apply str_eqb_eq; reflexivity. Qed.

Lemma str_eqb_neq (a b : jsstring) : str_eqb a b = false <-> a <> b.
Proof.
  rewrite <- str_eqb_eq. destruct (str_eqb a b); split; congruence.
Qed.

Lemma startsWith_spec (needle w : jsstring) :
  startsWith needle w = true <-> exists r, w = needle ++ r.
Proof.
  revert w; induction needle as [|n ns IH]; intros w; simpl.
  - split; [intros _; exists w; reflexivity | reflexivity].
  - destruct w as [|c cs].
    + split; [discriminate | intros [r Hr]; discriminate].
    + rewrite andb_true_iff, N.eqb_eq, IH. split.
      * intros [-> [r ->]]. exists r; reflexivity.
      * intros [r Hr]. injection Hr as -> ->. split; [reflexivity | eauto].
Qed.

Lemma includes_spec (w needle : jsstring) :
  includes w needle = true <-> substring needle w.
Proof.
  unfold substring. induction w as [|c w IH]; simpl.
  - rewrite orb_false_r, startsWith_spec. split.
    + intros [r Hr]. exists [], r. exact Hr.
    + intros [l [r Hr]]. destruct l as [|x l]; [|discriminate].
      exists r. exact Hr.
  - rewrite orb_true_iff, startsWith_spec, IH. split.
    + intros [[r Hr] | [l [r Hr]]].
      * exists [], r. exact Hr.
      * exists (c :: l), r. simpl. rewrite Hr. reflexivity.
    + intros [l [r Hr]]. destruct l as [|x l].
      * left. exists r. exact Hr.
      * right. injection Hr as _ Hr. exists l, r. exact Hr.
Qed.

(** Membership of one code unit. *)
Lemma includes_char (w : jsstring) (c : codeunit) :
  includes w [c] = true <-> In c w.
Proof.
  rewrite includes_spec. split.
  - intros [l [r ->]]. apply in_or_app. right. left. reflexivity.
  - intros H. apply in_split in H. destruct H as [l [r ->]].
    exists l, r. reflexivity.
Qed.

(* ================================================================= *)
(** ** Set and sort *)

Lemma N_compare_trans (x y z : N) (c : comparison) :
  N.compare x y = c -> N.compare y z = c -> N.compare x z = c.
Proof.
  destruct c; intros H1 H2.
  - apply N.compare_eq_iff in H1, H2. apply N.compare_eq_iff. congruence.
  - exact (N.lt_trans x y z H1 H2).
  - apply N.compare_gt_iff.
    exact (N.lt_trans z y x (proj1 (N.compare_gt_iff _ _) H2)
                            (proj1 (N.compare_gt_iff _ _) H1)).
Qed.

Lemma str_compare_eq (a b : jsstring) : str_compare a b = Eq <-> a = b.
Proof. apply list_compare_refl, N.compare_eq_iff. Qed.

Lemma str_compare_antisym (a b : jsstring) :
  str_compare b a = CompOpp (str_compare a b).
Proof.
  apply list_compare_antisym;
    [apply N.compare_eq_iff | intros; apply N.compare_antisym].
Qed.

Lemma str_compare_trans (a b c : jsstring) (o : comparison) :
  str_compare a b = o -> str_compare b c = o -> str_compare a c = o.
Proof.
  apply list_compare_trans;
    [apply N.compare_eq_iff | apply N_compare_trans
     | intros; apply N.compare_antisym].
Qed.

Lemma str_le_trans (a b c : jsstring) :
  str_le a b -> str_le b c -> str_le a c.
Proof.
  unfold str_le. intros H1 H2.
  destruct (str_compare a b) eqn:Eab; [| |congruence].
  - apply str_compare_eq in Eab. subst. exact H2.
  - destruct (str_compare b c) eqn:Ebc; [| |congruence].
    + apply str_compare_eq in Ebc. subst. rewrite Eab. discriminate.
    + rewrite (str_compare_trans _ _ _ _ Eab Ebc). discriminate.
Qed.

Lemma str_leb_false (a b : jsstring) : str_leb a b = false -> str_le b a.
Proof.
  unfold str_leb, str_le. rewrite (str_compare_antisym a b).
  destruct (str_compare a b); simpl; congruence.
Qed.

Lemma str_leb_true (a b : jsstring) : str_leb a b = true -> str_le a b.
Proof. unfold str_leb, str_le. destruct (str_compare a b); congruence. Qed.

Lemma sort_insert_perm (x : jsstring) (l : list jsstring) :
  Permutation (x :: l) (sort_insert x l).
Proof.
  induction l as [|y l IH]; simpl; [reflexivity|].
  destruct (str_leb y x); [|reflexivity].
  rewrite perm_swap. apply perm_skip, IH.
Qed.

Lemma sort_insert_sorted (x : jsstring) (l : list jsstring) :
  StronglySorted str_le l -> StronglySorted str_le (sort_insert x l).
Proof.
  induction 1 as [|y l Hl IH Hy]; simpl.
  - constructor; constructor.
  - destruct (str_leb y x) eqn:E.
    + constructor; [exact IH|].
      apply (Permutation_Forall (sort_insert_perm x l)).
      constructor; [apply str_leb_true, E | exact Hy].
    + apply str_leb_false in E. constructor.
      * constructor; assumption.
      * constructor; [exact E|].
        eapply Forall_impl; [|exact Hy].
        intros z Hz. exact (str_le_trans _ _ _ E Hz).
Qed.

Lemma sort_fold_perm (l acc : list jsstring) :
  Permutation (l ++ acc) (fold_left (fun a x => sort_insert x a) l acc).
Proof.
  revert acc; induction l as [|x l IH]; intros acc; simpl; [reflexivity|].
  rewrite <- IH. rewrite <- sort_insert_perm.
  apply Permutation_middle.
Qed.

Lemma sort_perm (l : list jsstring) : Permutation l (sort l).
Proof.
  unfold sort. rewrite <- sort_fold_perm, app_nil_r. reflexivity.
Qed.

Lemma sort_sorted (l : list jsstring) : StronglySorted str_le (sort l).
Proof.
  unfold sort. generalize (SSorted_nil str_le).
  generalize (@nil jsstring) as acc.
  induction l as [|x l IH]; intros acc Hacc; simpl; [exact Hacc|].
  apply IH, sort_insert_sorted, Hacc.
Qed.

Lemma sorted_nodup_strict (l : list jsstring) :
  StronglySorted str_le l -> NoDup l -> StronglySorted str_lt l.
Proof.
  induction 1 as [|y l Hl IH Hy]; intros Hnd; [constructor|].
  inversion Hnd as [|? ? Hnotin Hnd']; subst.
  constructor; [apply IH, Hnd'|].
  rewrite Forall_forall in *. intros z Hz.
  specialize (Hy z Hz). unfold str_le in Hy. unfold str_lt.
  destruct (str_compare y z) eqn:E; [|reflexivity|congruence].
  apply str_compare_eq in E. subst. contradiction.
Qed.

Lemma set_add_in (acc : list jsstring) (x v : jsstring) :
  In v (set_add acc x) <-> In v acc \/ v = x.
Proof.
  unfold set_add. destruct (existsb (str_eqb x) acc) eqn:E.
  - split; [auto|]. intros [H | ->]; [exact H|].
    apply existsb_exists in E. destruct E as [y [Hy Hxy]].
    apply str_eqb_eq in Hxy. subst. exact Hy.
  - rewrite in_app_iff. simpl. intuition.
Qed.

Lemma set_add_nodup (acc : list jsstring) (x : jsstring) :
  NoDup acc -> NoDup (set_add acc x).
Proof.
  intros Hnd. unfold set_add. destruct (existsb (str_eqb x) acc) eqn:E;
    [exact Hnd|].
  apply NoDup_app; [exact Hnd | repeat constructor; intros [] |].
  intros y Hy [<- | []].
  assert (existsb (str_eqb x) acc = true); [|congruence].
  apply existsb_exists. exists x. split; [exact Hy | apply str_eqb_refl].
Qed.

Lemma dedupe_fold (l acc : list jsstring) :
  NoDup acc ->
  NoDup (fold_left set_add l acc)
  /\ forall v, In v (fold_left set_add l acc) <-> In v acc \/ In v l.
Proof.
  revert acc; induction l as [|x l IH]; intros acc Hnd; simpl.
  - split; [exact Hnd | intuition].
  - destruct (IH (set_add acc x) (set_add_nodup _ x Hnd)) as [H1 H2].
    split; [exact H1|]. intros v. rewrite H2, set_add_in. intuition.
Qed.

Lemma dedupe_nodup (l : list jsstring) : NoDup (dedupe l).
Proof. apply dedupe_fold. constructor. Qed.

Lemma dedupe_in (l : list jsstring) (v : jsstring) :
  In v (dedupe l) <-> In v l.
Proof.
  unfold dedupe. destruct (dedupe_fold l [] (NoDup_nil _)) as [_ H].
  rewrite H. simpl. intuition.
Qed.

(* ================================================================= *)
(** ** extractVariables *)

(** C8. [extractVariables] returns a list that is strictly increasing
    in the order of [sort] (hence sorted and without duplicates) and
    whose members are exactly the symbols of the alphabet that occur
    in the expression as substrings. *)
Theorem extractVariables_spec (e : jsstring) :
  StronglySorted str_lt (extractVariables e)
  /\ NoDup (extractVariables e)
  /\ (forall v, In v (extractVariables e)
                <-> In v variables /\ substring v e)
  /\ extractVariables expr_p_or_q_and_r = [lit "p"; lit "q"; lit "r"]
  /\ extractVariables expr_p_and_p_or_q = [lit "p"; lit "q"].
Proof.
  assert (Hnd : NoDup (extractVariables e)).
  { unfold extractVariables.
    apply (Permutation_NoDup (sort_perm _)), dedupe_nodup. }
  split; [|split; [exact Hnd | split; [|split; reflexivity]]].
  - apply sorted_nodup_strict; [apply sort_sorted | exact Hnd].
  - intros v. unfold extractVariables.
    rewrite <- includes_spec.
    split.
    + intros H. apply (Permutation_in _ (Permutation_sym (sort_perm _))) in H.
      apply dedupe_in, filter_In in H. exact H.
    + intros H. apply (Permutation_in _ (sort_perm _)).
      apply dedupe_in, filter_In. exact H.
Qed.

(* ================================================================= *)
(** ** generateCombinations *)

(** C10. [generateCombinations([])] is [[[]]]: one row, the empty one. *)
Theorem generateCombinations_empty :
  generateCombinations [] = [[]].
Proof. reflexivity. Qed.

(** C1, on the code.  For [["p","q"]] the rows come in ascending order of
    the row index, but each row lists the bits of the index least
    significant bit first: row 1 is [[true,false]], row 2 is
    [[false,true]].  The most-significant-bit-first table of the
    documentation is a different one. *)
Theorem generateCombinations_pq_lsb_first :
  generateCombinations [lit "p"; lit "q"]
    = [[false; false]; [true; false]; [false; true]; [true; true]]
  /\ generateCombinations [lit "p"; lit "q"]
    <> map (msb_first_row 2) [0; 1; 2; 3]%Z.
Proof. split; [reflexivity | vm_compute; discriminate]. Qed.

(* ================================================================= *)
(** ** The rows of generateCombinations, in general *)

Lemma toInt32_small (z : Z) :
  (- 2 ^ 31 <= z < 2 ^ 31)%Z -> toInt32 z = z.
Proof. intros H. unfold toInt32. rewrite Z.mod_small; lia. Qed.

Lemma land_pow2_truthy (i j : Z) :
  (0 <= j)%Z -> truthy (Z.land i (2 ^ j)) = Z.testbit i j.
Proof.
  intros Hj. unfold truthy. destruct (Z.testbit i j) eqn:E.
  - destruct (Z.eqb_spec (Z.land i (2 ^ j)) 0) as [H0|]; [|reflexivity].
    assert (H : Z.testbit (Z.land i (2 ^ j)) j = true).
    { rewrite Z.land_spec, E, Z.pow2_bits_true; auto. }
    rewrite H0, Z.bits_0 in H. discriminate.
  - assert (H0 : Z.land i (2 ^ j) = 0%Z).
    { apply Z.bits_inj'. intros k Hk.
      rewrite Z.land_spec, Z.bits_0, Z.pow2_bits_eqb by exact Hj.
      destruct (Z.eqb_spec j k) as [<-|]; [rewrite E|];
        auto using andb_false_r. }
    rewrite H0. reflexivity.
Qed.

(** The mask [i & (1 << j)] tests bit [j] of the row index. *)
Lemma mask_testbit (i : Z) (j : nat) :
  (0 <= i < 2 ^ 31)%Z -> (j < 31)%nat ->
  truthy (band i (shl 1 (Z.of_nat j))) = Z.testbit i (Z.of_nat j).
Proof.
  intros Hi Hj. unfold band, shl.
  assert (Hp : (0 < 2 ^ Z.of_nat j < 2 ^ 31)%Z).
  { split; [apply Z.pow_pos_nonneg; lia|].
    apply Z.pow_lt_mono_r; lia. }
  rewrite (toInt32_small 1) by lia.
  rewrite Z.mod_small by lia.
  rewrite Z.shiftl_1_l.
  rewrite (toInt32_small (2 ^ Z.of_nat j)) by lia.
  rewrite (toInt32_small (2 ^ Z.of_nat j)) by lia.
  rewrite (toInt32_small i) by lia.
  apply land_pow2_truthy. lia.
Qed.

Lemma combination_loop_bits (i : Z) (count : nat) :
  (0 <= i < 2 ^ 31)%Z -> (count <= 31)%nat ->
  forall combination,
    combination_loop i count combination
    = lsb_first_row count i ++ combination.
Proof.
  intros Hi. unfold lsb_first_row.
  induction count as [|j IH]; intros Hc combination; [reflexivity|].
  cbn [combination_loop]. rewrite IH by lia.
  rewrite mask_testbit by (auto; lia).
  rewrite seq_S, map_app, <- app_assoc. reflexivity.
Qed.

Lemma rows_loop_rows (n : nat) :
  (n <= 31)%nat ->
  forall remaining i combinations,
    (Z.of_nat i + Z.of_nat remaining <= 2 ^ 31)%Z ->
    rows_loop n remaining (Z.of_nat i) combinations
    = combinations
        ++ map (fun k => lsb_first_row n (Z.of_nat k)) (seq i remaining).
Proof.
  intros Hn. induction remaining as [|k IH]; intros i combinations Hi.
  - simpl. rewrite app_nil_r. reflexivity.
  - cbn [rows_loop seq map].
    replace (Z.of_nat i + 1)%Z with (Z.of_nat (S i)) by lia.
    rewrite IH by lia.
    rewrite combination_loop_bits by lia.
    rewrite app_nil_r, <- app_assoc. reflexivity.
Qed.

(** For up to 31 variables, row [i] of [generateCombinations] holds
    bit [k] of [i] at position [k]: the first variable carries the
    least significant bit. *)
Lemma generateCombinations_rows (vars : list jsstring) :
  (length vars <= 31)%nat ->
  generateCombinations vars
  = map (fun i => lsb_first_row (length vars) (Z.of_nat i))
        (seq 0 (2 ^ length vars)).
Proof.
  intros Hn. unfold generateCombinations.
  change 0%Z with (Z.of_nat 0).
  rewrite rows_loop_rows; [reflexivity | exact Hn |].
  rewrite Nat2Z.inj_pow. change (Z.of_nat 2) with 2%Z.
  assert (2 ^ Z.of_nat (length vars) <= 2 ^ 31)%Z
    by (apply Z.pow_le_mono_r; lia).
  lia.
Qed.

(* ================================================================= *)
(** ** The operator table *)

Lemma operators_table (a b : bool) :
  operators AND a b = andb a b
  /\ operators OR a b = orb a b
  /\ operators NAND a b = negb (andb a b)
  /\ operators NOR a b = negb (orb a b)
  /\ operators XOR a b = xorb a b
  /\ operators XNOR a b = Bool.eqb a b
  /\ operators IMPLICATION a b = implb a b
  /\ operators_not a = negb a.
Proof. destruct a, b; repeat split. Qed.

(** Written without blanks, ["p<op>q"] and ["¬p"] evaluate to the
    value of the table. *)
Lemma evaluateExpression_binary_unspaced (op : binop) (a b : bool) :
  evaluateExpression 4 (Some [name Vp; symbol op; name Vq])
                     [(Vp, a); (Vq, b)] false
  = Some (mkResult (operators op a b) [] None None).
Proof. destruct op, a, b; reflexivity. Qed.

Lemma evaluateExpression_not_unspaced (a : bool) :
  evaluateExpression 4 (Some [c_not; name Vp]) [(Vp, a)] false
  = Some (mkResult (operators_not a) [] None None).
Proof. destruct a; reflexivity. Qed.

(** C2, on the code.  With the blanks of ["p → q"] the substituted
    string is ["0 → 0"]; no pattern [[01]→[01]] occurs in it, the
    string is not ['1'], and the result is [false] where the table
    says [true]. *)
Theorem evaluateExpression_spaced_implication (fuel : nat) :
  evaluateExpression fuel (Some expr_p_space_impl_q)
                     [(Vp, false); (Vq, false)] false
  = Some (mkResult false [] None None)
  /\ operators IMPLICATION false false = true.
Proof. split; [destruct fuel|]; reflexivity. Qed.

(** The validator accepts the expressions written with blanks, and
    the other inputs used below. *)
Lemma validateExpression_examples :
  validateExpression (Some expr_p_space_impl_q) = true
  /\ validateExpression (Some expr_p_or_q_and_r) = true
  /\ validateExpression (Some expr_not_paren_p) = true
  /\ validateExpression (Some (lit "p")) = true
  /\ validateExpression (Some []) = false
  /\ validateExpression None = false.
Proof. repeat split. Qed.

(* ================================================================= *)
(** ** The empty expression *)

(** C5. An empty or absent expression yields [{result: false, steps: []}]
    for every assignment and either trace flag. *)
Theorem evaluateExpression_empty (fuel : nat) (values : Assignment)
  (includeSteps : bool) :
  evaluateExpression fuel None values includeSteps
    = Some (mkResult false [] None None)
  /\ evaluateExpression fuel (Some []) values includeSteps
    = Some (mkResult false [] None None)
  /\ evaluateExpression fuel (Some (lit "")) [] false
    = Some (mkResult false [] None None).
Proof. repeat split. Qed.

(* ================================================================= *)
(** ** Induction along the scans *)

(** The scan for [¬d] looks two characters ahead, the scan for [d op d]
    three: induction principles that follow them. *)
Lemma scan2_ind (P : jsstring -> Prop) :
  P [] ->
  (forall c, P [c]) ->
  (forall c d r, P r -> P (d :: r) -> P (c :: d :: r)) ->
  forall w, P w.
Proof.
  intros H0 H1 H2 w.
  enough (H : P w /\ forall c, P (c :: w)) by apply H.
  induction w as [|d r [IHr IHc]]; split; auto.
Qed.

Lemma scan3_ind (P : jsstring -> Prop) :
  P [] ->
  (forall a, P [a]) ->
  (forall a b, P [a; b]) ->
  (forall a o b r, P r -> P (o :: b :: r) -> P (a :: o :: b :: r)) ->
  forall w, P w.
Proof.
  intros H0 H1 H2 H3 w.
  enough (H : P w /\ (forall b, P (b :: w)) /\ forall o b, P (o :: b :: w))
    by apply H.
  induction w as [|c r (IHr & IH1 & IH2)]; repeat split; auto.
Qed.

(* ================================================================= *)
(** ** The pass for [¬] *)

Definition not_redex_at (c value : codeunit) : bool :=
  N.eqb c c_not && is_bit value.

Lemma not_pass_cons2 (c value : codeunit) (r : jsstring) :
  not_pass (c :: value :: r)
  = if not_redex_at c value
    then (bit_char (operators_not (bit_val value)) :: fst (not_pass r),
          not_step value :: snd (not_pass r))
    else (c :: fst (not_pass (value :: r)), snd (not_pass (value :: r))).
Proof.
  unfold not_redex_at.
  change (not_pass (c :: value :: r))
    with (if N.eqb c c_not && is_bit value
          then let (out, pushed) := not_pass r in
               (bit_char (operators_not (bit_val value)) :: out,
                not_step value :: pushed)
          else let (out, pushed) := not_pass (value :: r) in
               (c :: out, pushed)).
  destruct (N.eqb c c_not && is_bit value);
    [destruct (not_pass r) | destruct (not_pass (value :: r))]; reflexivity.
Qed.

Lemma not_pass_nil : not_pass [] = ([], []).
Proof. reflexivity. Qed.

Lemma not_pass_one (c : codeunit) : not_pass [c] = ([c], []).
Proof. reflexivity. Qed.

(** Every match removes one character and pushes one record. *)
Lemma not_pass_length (w : jsstring) :
  length (fst (not_pass w)) + length (snd (not_pass w)) = length w.
Proof.
  induction w as [| c | c d r IHr IHd] using scan2_ind; try reflexivity.
  rewrite not_pass_cons2. destruct (not_redex_at c d); cbn [fst snd length] in *; lia.
Qed.

(** A pass without a match returns its input. *)
Lemma not_pass_unchanged (w : jsstring) :
  snd (not_pass w) = [] -> fst (not_pass w) = w.
Proof.
  induction w as [| c | c d r IHr IHd] using scan2_ind; try reflexivity.
  rewrite not_pass_cons2. destruct (not_redex_at c d); cbn [fst snd].
  - discriminate.
  - intros H. rewrite (IHd H). reflexivity.
Qed.

Lemma not_pass_changed (w : jsstring) :
  fst (not_pass w) <> w -> length (fst (not_pass w)) < length w.
Proof.
  intros H. pose proof (not_pass_length w) as L.
  destruct (snd (not_pass w)) eqn:E.
  - elim H. apply not_pass_unchanged, E.
  - simpl in L. lia.
Qed.

(** No pass brings in a character that was not there, digits apart. *)
Lemma not_pass_in (w : jsstring) (u : codeunit) :
  In u (fst (not_pass w)) -> In u w \/ is_bit u = true.
Proof.
  induction w as [| c | c d r IHr IHd] using scan2_ind; try (simpl; auto; fail).
  rewrite not_pass_cons2. destruct (not_redex_at c d); cbn [fst snd In].
  - intros [<- | H].
    + right. destruct (operators_not (bit_val d)); reflexivity.
    + destruct (IHr H); auto.
  - intros [<- | H]; auto. destruct (IHd H) as [[?|?]|?]; auto.
Qed.

(** A character that is neither [¬] nor a digit stays. *)
Lemma not_pass_keeps (w : jsstring) (u : codeunit) :
  u <> c_not -> is_bit u = false ->
  In u w -> In u (fst (not_pass w)).
Proof.
  intros Hn Hb.
  induction w as [| c | c d r IHr IHd] using scan2_ind; try (simpl; auto; fail).
  rewrite not_pass_cons2. destruct (not_redex_at c d) eqn:E; cbn [fst snd In] in *.
  - unfold not_redex_at in E. apply andb_true_iff in E. destruct E as [E1 E2].
    apply N.eqb_eq in E1. intros [<- | [<- | H]]; try congruence. auto.
  - intros [<- | H]; auto.
Qed.

(* ================================================================= *)
(** ** The pass for a binary operator *)

Definition op_redex_at (op : binop) (a o b : codeunit) : bool :=
  is_bit a && N.eqb o (symbol op) && is_bit b.

Lemma op_pass_cons3 (op : binop) (a o b : codeunit) (r : jsstring) :
  op_pass op (a :: o :: b :: r)
  = if op_redex_at op a o b
    then (bit_char (operators op (bit_val a) (bit_val b)) :: fst (op_pass op r),
          op_step op a b :: snd (op_pass op r))
    else (a :: fst (op_pass op (o :: b :: r)),
          snd (op_pass op (o :: b :: r))).
Proof.
  unfold op_redex_at.
  change (op_pass op (a :: o :: b :: r))
    with (if is_bit a && N.eqb o (symbol op) && is_bit b
          then let (out, pushed) := op_pass op r in
               (bit_char (operators op (bit_val a) (bit_val b)) :: out,
                op_step op a b :: pushed)
          else let (out, pushed) := op_pass op (o :: b :: r) in
               (a :: out, pushed)).
  destruct (is_bit a && N.eqb o (symbol op) && is_bit b);
    [destruct (op_pass op r) | destruct (op_pass op (o :: b :: r))];
    reflexivity.
Qed.

Lemma op_pass_short (op : binop) (w : jsstring) :
  length w <= 2 -> op_pass op w = (w, []).
Proof.
  destruct w as [|a [|b [|c r]]]; simpl; try reflexivity. lia.
Qed.

Lemma has_match_cons3 (op : binop) (a o b : codeunit) (r : jsstring) :
  has_match op (a :: o :: b :: r)
  = op_redex_at op a o b || has_match op (o :: b :: r).
Proof. reflexivity. Qed.

Lemma has_match_short (op : binop) (w : jsstring) :
  length w <= 2 -> has_match op w = false.
Proof.
  destruct w as [|a [|b [|c r]]]; simpl; try reflexivity. lia.
Qed.

(** Every match removes two characters and pushes one record. *)
Lemma op_pass_length (op : binop) (w : jsstring) :
  length (fst (op_pass op w)) + 2 * length (snd (op_pass op w)) = length w.
Proof.
  induction w as [| a | a b | a o b r IHr IHo] using scan3_ind;
    try reflexivity.
  rewrite op_pass_cons3.
  destruct (op_redex_at op a o b); cbn [fst snd length] in *; lia.
Qed.

(** [result.match(regex)] succeeds exactly when the pass replaces
    something. *)
Lemma has_match_pushed (op : binop) (w : jsstring) :
  has_match op w = true <-> snd (op_pass op w) <> [].
Proof.
  induction w as [| a | a b | a o b r IHr IHo] using scan3_ind;
    try (simpl; split; [discriminate | congruence]).
  rewrite has_match_cons3, op_pass_cons3.
  destruct (op_redex_at op a o b); cbn [fst snd orb].
  - split; [discriminate | reflexivity].
  - exact IHo.
Qed.

Lemma op_pass_unchanged (op : binop) (w : jsstring) :
  snd (op_pass op w) = [] -> fst (op_pass op w) = w.
Proof.
  induction w as [| a | a b | a o b r IHr IHo] using scan3_ind;
    try reflexivity.
  rewrite op_pass_cons3. destruct (op_redex_at op a o b); cbn [fst snd].
  - discriminate.
  - intros H. rewrite (IHo H). reflexivity.
Qed.

Lemma op_pass_shortens (op : binop) (w : jsstring) :
  has_match op w = true -> length (fst (op_pass op w)) < length w.
Proof.
  intros H. apply has_match_pushed in H.
  pose proof (op_pass_length op w) as L.
  destruct (snd (op_pass op w)); [congruence | simpl in L; lia].
Qed.

Lemma op_pass_in (op : binop) (w : jsstring) (u : codeunit) :
  In u (fst (op_pass op w)) -> In u w \/ is_bit u = true.
Proof.
  induction w as [| a | a b | a o b r IHr IHo] using scan3_ind;
    try (simpl; auto; fail).
  rewrite op_pass_cons3. destruct (op_redex_at op a o b); cbn [fst snd In].
  - intros [<- | H].
    + right. destruct (operators op (bit_val a) (bit_val b)); reflexivity.
    + destruct (IHr H); auto.
  - intros [<- | H]; auto. destruct (IHo H) as [[?|[?|?]]|?]; auto.
Qed.

(** A character that is neither the operator nor a digit stays. *)
Lemma op_pass_keeps (op : binop) (w : jsstring) (u : codeunit) :
  u <> symbol op -> is_bit u = false ->
  In u w -> In u (fst (op_pass op w)).
Proof.
  intros Hn Hb.
  induction w as [| a | a b | a o b r IHr IHo] using scan3_ind;
    try (simpl; auto; fail).
  rewrite op_pass_cons3. destruct (op_redex_at op a o b) eqn:E;
    cbn [fst snd In] in *.
  - unfold op_redex_at in E. apply andb_true_iff in E. destruct E as [E E3].
    apply andb_true_iff in E. destruct E as [E1 E2]. apply N.eqb_eq in E2.
    intros [<- | [<- | [<- | H]]]; try congruence. auto.
  - intros [<- | H]; auto.
Qed.

(* ================================================================= *)
(** ** The loops of evaluateSubExpression *)

Lemma not_pass_no_not (w : jsstring) :
  includes w [c_not] = false -> snd (not_pass w) = [].
Proof.
  intros H.
  assert (Hn : ~ In c_not w).
  { intros Hin. apply includes_char in Hin. congruence. }
  clear H.
  induction w as [| c | c d r IHr IHd] using scan2_ind; try reflexivity.
  rewrite not_pass_cons2. destruct (not_redex_at c d) eqn:E; cbn [fst snd].
  - unfold not_redex_at in E. apply andb_true_iff in E. destruct E as [E _].
    apply N.eqb_eq in E. subst c. elim Hn. left. reflexivity.
  - apply IHd. intros Hin. apply Hn. right. exact Hin.
Qed.

Lemma not_loop_unfold (fuel : nat) (w : jsstring) :
  not_loop fuel w
  = if negb (includes w [c_not]) then Some (w, [])
    else match fuel with
         | O => None
         | S fuel' =>
             if str_eqb w (fst (not_pass w))
             then Some (fst (not_pass w), snd (not_pass w))
             else ' (final, more) <- not_loop fuel' (fst (not_pass w)) ;;
                  Some (final, snd (not_pass w) ++ more)
         end.
Proof.
  destruct fuel; simpl; [reflexivity|].
  destruct (not_pass w); reflexivity.
Qed.

(** What a completed [¬] loop has done: either nothing was left to
    replace, or a pass replaced something and the loop went on. *)
Lemma not_loop_cases (P : jsstring -> jsstring -> list Step -> Prop) :
  (forall w, snd (not_pass w) = [] -> P w w []) ->
  (forall w final more,
      snd (not_pass w) <> [] ->
      P (fst (not_pass w)) final more ->
      P w final (snd (not_pass w) ++ more)) ->
  forall fuel w final tr,
    not_loop fuel w = Some (final, tr) -> P w final tr.
Proof.
  intros Hbase Hstep. induction fuel as [|fuel IH]; intros w final tr;
    rewrite not_loop_unfold;
    destruct (includes w [c_not]) eqn:Ei; cbn [negb];
    try (intros H; injection H as <- <-;
         apply Hbase, not_pass_no_not, Ei);
    try discriminate.
  destruct (str_eqb w (fst (not_pass w))) eqn:Eq.
  - apply str_eqb_eq in Eq. intros H. injection H as <- <-.
    pose proof (not_pass_length w) as L. rewrite <- Eq in L.
    assert (E0 : snd (not_pass w) = [])
      by (destruct (snd (not_pass w)); [reflexivity | simpl in L; lia]).
    rewrite E0, <- Eq. apply Hbase, E0.
  - apply str_eqb_neq in Eq.
    destruct (not_loop fuel (fst (not_pass w))) as [[f m]|] eqn:El;
      cbn [bind]; [|discriminate].
    intros H. injection H as <- <-. apply Hstep.
    + intros E0. apply Eq. symmetry. apply not_pass_unchanged, E0.
    + apply IH, El.
Qed.

Lemma not_loop_total (fuel : nat) (w : jsstring) :
  length w <= fuel -> exists final tr, not_loop fuel w = Some (final, tr).
Proof.
  revert w. induction fuel as [|fuel IH]; intros w Hlen;
    rewrite not_loop_unfold; destruct (includes w [c_not]) eqn:Ei;
    cbn [negb]; eauto.
  - destruct w; [discriminate | simpl in Hlen; lia].
  - destruct (str_eqb w (fst (not_pass w))) eqn:Eq; eauto.
    apply str_eqb_neq in Eq.
    assert (Hlt : length (fst (not_pass w)) < length w)
      by (apply not_pass_changed; congruence).
    destruct (IH (fst (not_pass w))) as (f & m & ->); [lia|].
    cbn [bind]. eauto.
Qed.

Lemma op_loop_unfold (fuel : nat) (op : binop) (w : jsstring) :
  op_loop fuel op w
  = if negb (has_match op w) then Some (w, [])
    else match fuel with
         | O => None
         | S fuel' =>
             if str_eqb w (fst (op_pass op w))
             then Some (fst (op_pass op w), snd (op_pass op w))
             else ' (final, more) <- op_loop fuel' op (fst (op_pass op w)) ;;
                  Some (final, snd (op_pass op w) ++ more)
         end.
Proof.
  destruct fuel; simpl; [reflexivity|].
  destruct (op_pass op w); reflexivity.
Qed.

Lemma op_loop_cases (op : binop)
  (P : jsstring -> jsstring -> list Step -> Prop) :
  (forall w, has_match op w = false -> P w w []) ->
  (forall w final more,
      has_match op w = true ->
      P (fst (op_pass op w)) final more ->
      P w final (snd (op_pass op w) ++ more)) ->
  forall fuel w final tr,
    op_loop fuel op w = Some (final, tr) -> P w final tr.
Proof.
  intros Hbase Hstep. induction fuel as [|fuel IH]; intros w final tr;
    rewrite op_loop_unfold;
    destruct (has_match op w) eqn:Em; cbn [negb];
    try (intros H; injection H as <- <-; apply Hbase, Em);
    try discriminate.
  pose proof (op_pass_shortens op w Em) as Hlt.
  destruct (str_eqb w (fst (op_pass op w))) eqn:Eq.
  - apply str_eqb_eq in Eq. rewrite <- Eq in Hlt. lia.
  - destruct (op_loop fuel op (fst (op_pass op w))) as [[f m]|] eqn:El;
      cbn [bind]; [|discriminate].
    intros H. injection H as <- <-. apply Hstep; [exact Em | apply IH, El].
Qed.

Lemma op_loop_total (fuel : nat) (op : binop) (w : jsstring) :
  length w <= fuel -> exists final tr, op_loop fuel op w = Some (final, tr).
Proof.
  revert w. induction fuel as [|fuel IH]; intros w Hlen;
    rewrite op_loop_unfold; destruct (has_match op w) eqn:Em;
    cbn [negb]; eauto.
  - destruct w; [discriminate | simpl in Hlen; lia].
  - pose proof (op_pass_shortens op w Em) as Hlt.
    destruct (str_eqb w (fst (op_pass op w))) eqn:Eq; eauto.
    destruct (IH (fst (op_pass op w))) as (f & m & ->); [lia|].
    cbn [bind]. eauto.
Qed.

(** The working string never grows. *)
Lemma not_loop_length (fuel : nat) (w final : jsstring) (tr : list Step) :
  not_loop fuel w = Some (final, tr) -> length final <= length w.
Proof.
  revert fuel w final tr.
  apply (not_loop_cases (fun w final _ => length final <= length w)).
  - intros; lia.
  - intros w final more _ IH. pose proof (not_pass_length w). lia.
Qed.

Lemma op_loop_length (fuel : nat) (op : binop) (w final : jsstring)
  (tr : list Step) :
  op_loop fuel op w = Some (final, tr) -> length final <= length w.
Proof.
  revert fuel w final tr.
  apply (op_loop_cases op (fun w final _ => length final <= length w)).
  - intros; lia.
  - intros w final more _ IH. pose proof (op_pass_length op w). lia.
Qed.

Lemma operators_loop_length (fuel : nat) (ops : list binop)
  (w final : jsstring) (tr : list Step) :
  operators_loop fuel ops w = Some (final, tr) -> length final <= length w.
Proof.
  revert w final tr. induction ops as [|op ops IH]; intros w final tr; simpl.
  - intros H. injection H as <- <-. lia.
  - destruct (op_loop fuel op w) as [[w1 t1]|] eqn:E1; cbn [bind];
      [|discriminate].
    destruct (operators_loop fuel ops w1) as [[w2 t2]|] eqn:E2; cbn [bind];
      [|discriminate].
    intros H. injection H as <- <-.
    apply op_loop_length in E1. apply IH in E2. lia.
Qed.

Lemma operators_loop_total (fuel : nat) (ops : list binop) (w : jsstring) :
  length w <= fuel ->
  exists final tr, operators_loop fuel ops w = Some (final, tr).
Proof.
  revert w. induction ops as [|op ops IH]; intros w Hlen; simpl; eauto.
  destruct (op_loop_total fuel op w Hlen) as (w1 & t1 & E1).
  rewrite E1. cbn [bind]. apply op_loop_length in E1.
  destruct (IH w1) as (w2 & t2 & E2); [lia|].
  rewrite E2. cbn [bind]. eauto.
Qed.

Lemma reduceSubExpression_total (fuel : nat) (w : jsstring) :
  length w <= fuel ->
  exists final tr,
    reduceSubExpression fuel w = Some (final, tr) /\ length final <= length w.
Proof.
  intros Hlen. unfold reduceSubExpression.
  destruct (not_loop_total fuel w Hlen) as (w0 & t0 & E0).
  rewrite E0. cbn [bind]. apply not_loop_length in E0.
  destruct (operators_loop_total fuel operatorOrder w0) as (w1 & t1 & E1);
    [lia|].
  rewrite E1. cbn [bind]. apply operators_loop_length in E1.
  exists w1, (t0 ++ t1). split; [reflexivity | lia].
Qed.

Lemma evaluateSubExpression_total (fuel : nat) (w : jsstring)
  (steps : option (list Step)) :
  length w <= fuel ->
  exists b steps', evaluateSubExpression fuel w steps = Some (b, steps').
Proof.
  intros Hlen. unfold evaluateSubExpression.
  destruct (reduceSubExpression_total fuel w Hlen) as (f & t & -> & _).
  cbn [bind]. eauto.
Qed.

(* ================================================================= *)
(** ** Substitution *)

Lemma replace_variable_length (prev : bool) (v d : codeunit) (w : jsstring) :
  length (replace_variable prev v d w) = length w.
Proof.
  revert prev; induction w as [|c r IH]; intros prev; simpl; auto.
Qed.

(** A variable that does not occur is not replaced. *)
Lemma replace_variable_absent (prev : bool) (v d : codeunit) (w : jsstring) :
  ~ In v w -> replace_variable prev v d w = w.
Proof.
  revert prev; induction w as [|c r IH]; intros prev Hn; simpl; auto.
  destruct (N.eqb_spec c v) as [->|Hne].
  - elim Hn. left. reflexivity.
  - cbn [andb]. rewrite IH; [reflexivity|].
    intros H. apply Hn. right. exact H.
Qed.

(** Replacement only turns occurrences of the variable into the digit. *)
Lemma replace_variable_in (prev : bool) (v d u : codeunit) (w : jsstring) :
  In u (replace_variable prev v d w) -> In u w \/ u = d.
Proof.
  revert prev; induction w as [|c r IH]; intros prev; simpl; auto.
  intros [H | H].
  - destruct (N.eqb c v && negb prev && negb _); auto.
  - destruct (IH _ H); auto.
Qed.

Lemma replace_variable_keeps (prev : bool) (v d u : codeunit) (w : jsstring) :
  u <> v -> In u w -> In u (replace_variable prev v d w).
Proof.
  intros Hne. revert prev; induction w as [|c r IH]; intros prev; simpl; auto.
  intros [<- | H]; [|right; apply IH, H].
  left. destruct (N.eqb_spec c v); [congruence | reflexivity].
Qed.

Lemma substitute_loop_cons (v : Var) (b : bool) (rest : Assignment)
  (w : jsstring) :
  substitute_loop ((v, b) :: rest) w
  = let w' := replace_variable false (name v) (bit_char b) w in
    (fst (substitute_loop rest w'),
     (if negb (str_eqb w w') then [substitution_step v b w'] else [])
       ++ snd (substitute_loop rest w')).
Proof.
  cbn [substitute_loop].
  destruct (substitute_loop rest _); reflexivity.
Qed.

Lemma substituted_length (values : Assignment) (w : jsstring) :
  length (substituted values w) = length w.
Proof.
  unfold substituted.
  revert w; induction values as [|[v b] rest IH]; intros w; [reflexivity|].
  rewrite substitute_loop_cons. cbn [fst]. rewrite IH.
  apply replace_variable_length.
Qed.

Lemma name_not_bit (v : Var) (b : bool) : name v <> bit_char b.
Proof. destruct v, b; discriminate. Qed.

Lemma name_inj (u v : Var) : name u = name v -> u = v.
Proof. destruct u, v; simpl; intros H; try reflexivity; discriminate. Qed.

Lemma Var_eqb_eq (u v : Var) : Var_eqb u v = true <-> u = v.
Proof.
  unfold Var_eqb. rewrite N.eqb_eq. split; [apply name_inj | congruence].
Qed.

(* ================================================================= *)
(** ** The pass for parentheses *)

Definition pending_ok (pending : option jsstring) : Prop :=
  forall acc, pending = Some acc -> ~ In c_lparen acc.

Lemma count_open_app (a b : jsstring) :
  count_open (a ++ b) = count_open a + count_open b.
Proof. unfold count_open. rewrite filter_app, length_app. reflexivity. Qed.

Lemma count_open_absent (w : jsstring) :
  ~ In c_lparen w -> count_open w = 0.
Proof.
  unfold count_open. induction w as [|c r IH]; intros Hn; cbn [filter]; auto.
  destruct (N.eqb_spec c_lparen c) as [E|_].
  - elim Hn. left. symmetry. exact E.
  - apply IH. intros H. apply Hn. right. exact H.
Qed.

Lemma count_open_cons (c : codeunit) (w : jsstring) :
  count_open (c :: w) = (if N.eqb c c_lparen then 1 else 0) + count_open w.
Proof.
  unfold count_open. cbn [filter]. rewrite (N.eqb_sym c_lparen c).
  destruct (N.eqb c c_lparen); reflexivity.
Qed.

Lemma flush_push (acc : jsstring) (c : codeunit) (r : jsstring) :
  flush (Some (c :: acc)) ++ r = flush (Some acc) ++ c :: r.
Proof. simpl. rewrite <- app_assoc. reflexivity. Qed.

Ltac count_norm :=
  cbn [flush app length] in *;
  change (rev (@nil codeunit)) with (@nil codeunit) in *;
  cbn [flush app length] in *;
  rewrite ?count_open_app, ?count_open_cons, ?length_app in *;
  cbn [flush app length] in *;
  rewrite ?count_open_app, ?count_open_cons, ?length_app in *;
  change (N.eqb c_lparen c_lparen) with true in *;
  change (N.eqb c_rparen c_lparen) with false in *;
  cbv iota in *.

(** One pass over a string of at most [fuel] characters completes;
    each match removes one [(], at least two characters, and pushes
    one record; without a match the string is returned as it was. *)
Lemma paren_pass_facts (fuel : nat) (includeSteps : bool) (w : jsstring) :
  forall pending,
    pending_ok pending ->
    length (flush pending ++ w) <= fuel ->
    exists out pushed,
      paren_pass fuel includeSteps pending w = Some (out, pushed)
      /\ count_open out + length pushed = count_open (flush pending ++ w)
      /\ length out + 2 * length pushed <= length (flush pending ++ w)
      /\ (pushed = [] -> out = flush pending ++ w).
Proof.
  assert (Hnone : pending_ok None) by (intros acc [=]).
  induction w as [|c r IH]; intros pending Hok Hlen.
  - exists (flush pending), []. rewrite app_nil_r. cbn [paren_pass length].
    repeat split; lia.
  - cbn [paren_pass]. destruct (N.eqb_spec c c_lparen) as [->|Hnl].
    + destruct (IH (Some [])) as (out & pushed & -> & Hc & Hl & Hu).
      { intros acc [= <-] []. }
      { count_norm. lia. }
      cbn [bind]. exists (flush pending ++ out), pushed.
      count_norm. split; [reflexivity|]. split; [lia|]. split; [lia|].
      intros E. rewrite (Hu E). reflexivity.
    + apply N.eqb_neq in Hnl.
      destruct (N.eqb_spec c c_rparen) as [->|Hnr].
      * destruct pending as [[|a acc]|].
        -- destruct (IH None Hnone) as (out & pushed & -> & Hc & Hl & Hu).
           { count_norm. lia. }
           cbn [bind]. exists (flush (Some []) ++ c_rparen :: out), pushed.
           count_norm. split; [reflexivity|]. split; [lia|]. split; [lia|].
           intros E. rewrite (Hu E). reflexivity.
        -- assert (Hsub : length (rev (a :: acc)) <= fuel)
             by (count_norm; lia).
           destruct (evaluateSubExpression_total fuel (rev (a :: acc))
                       (if includeSteps then Some [] else None) Hsub)
             as (b & st & ->).
           destruct (IH None Hnone) as (out & pushed & -> & Hc & Hl & Hu).
           { count_norm. lia. }
           cbn [bind].
           exists (bit_char b :: out),
             (paren_step (rev (a :: acc)) b st :: pushed).
           assert (H0 : count_open (rev (a :: acc)) = 0).
           { apply count_open_absent. intros H. apply in_rev in H.
             exact (Hok _ eq_refl H). }
           assert (H1 : length (rev (a :: acc)) >= 1)
             by (rewrite length_rev; cbn [length]; lia).
           assert (Eb : N.eqb (bit_char b) c_lparen = false)
             by (destruct b; reflexivity).
           count_norm. rewrite Eb, H0.
           split; [reflexivity|]. split; [lia|]. split; [lia|]. discriminate.
        -- destruct (IH None Hnone) as (out & pushed & -> & Hc & Hl & Hu).
           { count_norm. lia. }
           cbn [bind]. exists (c_rparen :: out), pushed.
           count_norm. split; [reflexivity|]. split; [lia|]. split; [lia|].
           intros E. rewrite (Hu E). reflexivity.
      * destruct pending as [acc|].
        -- destruct (IH (Some (c :: acc))) as (out & pushed & -> & Hc & Hl & Hu).
           { intros acc' [= <-] [H | H];
               [apply N.eqb_neq in Hnl; congruence|].
             exact (Hok _ eq_refl H). }
           { rewrite flush_push. exact Hlen. }
           rewrite flush_push in *. eauto 10.
        -- destruct (IH None Hnone) as (out & pushed & -> & Hc & Hl & Hu).
           { count_norm. lia. }
           cbn [bind]. exists (c :: out), pushed.
           count_norm. rewrite Hnl.
           split; [reflexivity|]. split; [lia|]. split; [lia|].
           intros E. rewrite (Hu E). reflexivity.
Qed.

(** The scan agrees with the regular expression: a [(], a non-empty
    run [body] without parentheses and a [)] are one match, replaced by
    the digit of [evaluateSubExpression(body)]; other characters are
    copied. *)
Lemma paren_pass_close (fuel : nat) (includeSteps : bool)
  (body rest : jsstring) :
  ~ In c_lparen body -> ~ In c_rparen body ->
  forall acc,
    rev acc ++ body <> [] ->
    paren_pass fuel includeSteps (Some acc) (body ++ c_rparen :: rest)
    = ' (subResult, subSteps') <-
          evaluateSubExpression fuel (rev acc ++ body)
            (if includeSteps then Some [] else None) ;;
      ' (out, pushed) <- paren_pass fuel includeSteps None rest ;;
      Some (bit_char subResult :: out,
            paren_step (rev acc ++ body) subResult subSteps' :: pushed).
Proof.
  induction body as [|c body IH]; intros Hl Hr acc Hne.
  - rewrite app_nil_r in *. cbn [app paren_pass].
    change (N.eqb c_rparen c_lparen) with false.
    change (N.eqb c_rparen c_rparen) with true. cbv iota.
    destruct acc as [|a acc]; [elim Hne; reflexivity | reflexivity].
  - cbn [app paren_pass].
    destruct (N.eqb_spec c c_lparen) as [->|_];
      [elim Hl; left; reflexivity|].
    destruct (N.eqb_spec c c_rparen) as [->|_];
      [elim Hr; left; reflexivity|].
    rewrite IH.
    + cbn [rev]. rewrite <- app_assoc. reflexivity.
    + intros H. apply Hl. right. exact H.
    + intros H. apply Hr. right. exact H.
    + cbn [rev]. rewrite <- app_assoc. destruct (rev acc); discriminate.
Qed.

Lemma paren_pass_match (fuel : nat) (includeSteps : bool)
  (body rest : jsstring) :
  body <> [] -> ~ In c_lparen body -> ~ In c_rparen body ->
  paren_pass fuel includeSteps None (c_lparen :: body ++ c_rparen :: rest)
  = ' (subResult, subSteps') <-
        evaluateSubExpression fuel body
          (if includeSteps then Some [] else None) ;;
    ' (out, pushed) <- paren_pass fuel includeSteps None rest ;;
    Some (bit_char subResult :: out,
          paren_step body subResult subSteps' :: pushed).
Proof.
  intros Hne Hl Hr.
  change (paren_pass fuel includeSteps None
            (c_lparen :: body ++ c_rparen :: rest))
    with (' (out, pushed) <-
              paren_pass fuel includeSteps (Some [])
                (body ++ c_rparen :: rest) ;;
          Some (flush None ++ out, pushed)).
  rewrite (paren_pass_close fuel includeSteps body rest Hl Hr [] Hne).
  cbn [rev app].
  destruct (evaluateSubExpression fuel body _) as [[b st]|];
    [|reflexivity].
  cbn [bind]. destruct (paren_pass fuel includeSteps None rest) as [[o p]|];
    reflexivity.
Qed.

Lemma paren_pass_copy (fuel : nat) (includeSteps : bool) (c : codeunit)
  (rest : jsstring) :
  c <> c_lparen ->
  paren_pass fuel includeSteps None (c :: rest)
  = ' (out, pushed) <- paren_pass fuel includeSteps None rest ;;
    Some (c :: out, pushed).
Proof.
  intros Hc. cbn [paren_pass]. apply N.eqb_neq in Hc. rewrite Hc.
  destruct (N.eqb c c_rparen); reflexivity.
Qed.

Lemma paren_pass_top (fuel : nat) (includeSteps : bool) (w : jsstring) :
  length w <= fuel ->
  exists out pushed,
    paren_pass fuel includeSteps None w = Some (out, pushed)
    /\ count_open out + length pushed = count_open w
    /\ length out + 2 * length pushed <= length w
    /\ (pushed = [] -> out = w).
Proof.
  intros Hlen.
  apply (paren_pass_facts fuel includeSteps w None);
    [intros acc [=] | exact Hlen].
Qed.

Lemma count_open_present (w : jsstring) :
  includes w [c_lparen] = true -> 1 <= count_open w.
Proof.
  rewrite includes_char.
  induction w as [|c r IH]; intros H; [destruct H|].
  rewrite count_open_cons. destruct H as [-> | H].
  - change (N.eqb c_lparen c_lparen) with true. cbv iota. lia.
  - specialize (IH H). lia.
Qed.

Lemma count_open_le_length (w : jsstring) : count_open w <= length w.
Proof. apply filter_length_le. Qed.

Lemma paren_loop_unfold (fuel count : nat) (includeSteps : bool)
  (w : jsstring) :
  paren_loop fuel count includeSteps w
  = if negb (includes w [c_lparen]) then Some (w, [])
    else match count with
         | O => None
         | S count' =>
             ' (res', pushed) <- paren_pass fuel includeSteps None w ;;
             if str_eqb w res' then Some (res', pushed)
             else ' (final, more) <-
                      paren_loop fuel count' includeSteps res' ;;
                  Some (final, pushed ++ more)
         end.
Proof. destruct count; reflexivity. Qed.

(** The loop over the parentheses completes within [count_open w]
    passes that replace something, and never lengthens the string. *)
Lemma paren_loop_total (fuel : nat) (includeSteps : bool) :
  forall count w,
    length w <= fuel -> count_open w <= count ->
    exists final tr,
      paren_loop fuel count includeSteps w = Some (final, tr)
      /\ length final <= length w.
Proof.
  induction count as [|count IH]; intros w Hlen Hcount;
    rewrite paren_loop_unfold;
    destruct (includes w [c_lparen]) eqn:Ei; cbn [negb]; eauto.
  - apply count_open_present in Ei. lia.
  - destruct (paren_pass_top fuel includeSteps w Hlen)
      as (out & pushed & -> & Hc & Hl & Hu).
    cbn [bind]. destruct (str_eqb w out) eqn:Eq; eauto.
    + exists out, pushed. split; [reflexivity | lia].
    + apply str_eqb_neq in Eq.
      assert (pushed <> []) by (intros E; apply Eq; symmetry; auto).
      assert (length pushed >= 1)
        by (destruct pushed; [congruence | simpl; lia]).
      destruct (IH out) as (f & m & -> & Hf); try lia.
      cbn [bind]. exists f, (pushed ++ m). split; [reflexivity | lia].
Qed.

(* ================================================================= *)
(** ** More fuel changes nothing *)

Lemma not_loop_mono (f f' : nat) (w : jsstring) x :
  not_loop f w = Some x -> f <= f' -> not_loop f' w = Some x.
Proof.
  revert f' w x. induction f as [|f IH]; intros f' w x;
    rewrite (not_loop_unfold _ w), (not_loop_unfold f' w);
    destruct (includes w [c_not]); cbn [negb]; auto; try discriminate.
  intros H Hle. destruct f' as [|f']; [lia|].
  destruct (str_eqb w (fst (not_pass w))); [exact H|].
  destruct (not_loop f (fst (not_pass w))) as [y|] eqn:E; [|discriminate].
  rewrite (IH f' _ y E); [exact H | lia].
Qed.

Lemma op_loop_mono (f f' : nat) (op : binop) (w : jsstring) x :
  op_loop f op w = Some x -> f <= f' -> op_loop f' op w = Some x.
Proof.
  revert f' w x. induction f as [|f IH]; intros f' w x;
    rewrite (op_loop_unfold _ op w), (op_loop_unfold f' op w);
    destruct (has_match op w); cbn [negb]; auto; try discriminate.
  intros H Hle. destruct f' as [|f']; [lia|].
  destruct (str_eqb w (fst (op_pass op w))); [exact H|].
  destruct (op_loop f op (fst (op_pass op w))) as [y|] eqn:E; [|discriminate].
  rewrite (IH f' _ y E); [exact H | lia].
Qed.

Lemma operators_loop_mono (f f' : nat) (ops : list binop) (w : jsstring) x :
  operators_loop f ops w = Some x -> f <= f' ->
  operators_loop f' ops w = Some x.
Proof.
  revert w x. induction ops as [|op ops IH]; intros w x; simpl; auto.
  intros H Hle.
  destruct (op_loop f op w) as [[w1 t1]|] eqn:E1; [|discriminate].
  rewrite (op_loop_mono f f' op w _ E1 Hle). cbn [bind] in *.
  destruct (operators_loop f ops w1) as [y|] eqn:E2; [|discriminate].
  rewrite (IH _ _ E2 Hle). exact H.
Qed.

Lemma reduceSubExpression_mono (f f' : nat) (w : jsstring) x :
  reduceSubExpression f w = Some x -> f <= f' ->
  reduceSubExpression f' w = Some x.
Proof.
  unfold reduceSubExpression. intros H Hle.
  destruct (not_loop f w) as [[w0 t0]|] eqn:E0; [|discriminate].
  rewrite (not_loop_mono f f' w _ E0 Hle). cbn [bind] in *.
  destruct (operators_loop f operatorOrder w0) as [y|] eqn:E1;
    [|discriminate].
  rewrite (operators_loop_mono f f' _ w0 _ E1 Hle). exact H.
Qed.

Lemma evaluateSubExpression_mono (f f' : nat) (w : jsstring) steps x :
  evaluateSubExpression f w steps = Some x -> f <= f' ->
  evaluateSubExpression f' w steps = Some x.
Proof.
  unfold evaluateSubExpression. intros H Hle.
  destruct (reduceSubExpression f w) as [y|] eqn:E; [|discriminate].
  rewrite (reduceSubExpression_mono f f' w _ E Hle). exact H.
Qed.

Lemma paren_pass_mono (f f' : nat) (includeSteps : bool) (w : jsstring) :
  f <= f' ->
  forall pending x,
    paren_pass f includeSteps pending w = Some x ->
    paren_pass f' includeSteps pending w = Some x.
Proof.
  intros Hle. induction w as [|c r IH]; intros pending x; cbn [paren_pass];
    auto.
  destruct (N.eqb c c_lparen).
  - destruct (paren_pass f includeSteps (Some []) r) as [y|] eqn:E;
      [|discriminate].
    rewrite (IH _ _ E). auto.
  - destruct (N.eqb c c_rparen).
    + destruct pending as [[|a acc]|].
      * destruct (paren_pass f includeSteps None r) as [y|] eqn:E;
          [|discriminate].
        rewrite (IH _ _ E). auto.
      * destruct (evaluateSubExpression f (rev (a :: acc)) _) as [y|] eqn:Es;
          [|discriminate].
        rewrite (evaluateSubExpression_mono f f' _ _ _ Es Hle).
        cbn [bind]. destruct y as [b st].
        destruct (paren_pass f includeSteps None r) as [z|] eqn:E;
          [|discriminate].
        rewrite (IH _ _ E). auto.
      * destruct (paren_pass f includeSteps None r) as [y|] eqn:E;
          [|discriminate].
        rewrite (IH _ _ E). auto.
    + destruct pending as [acc|]; [apply IH|].
      destruct (paren_pass f includeSteps None r) as [y|] eqn:E;
        [|discriminate].
      rewrite (IH _ _ E). auto.
Qed.

Lemma paren_loop_mono (f f' : nat) (includeSteps : bool) :
  f <= f' ->
  forall c c' w x,
    paren_loop f c includeSteps w = Some x -> c <= c' ->
    paren_loop f' c' includeSteps w = Some x.
Proof.
  intros Hle. induction c as [|c IH]; intros c' w x;
    rewrite (paren_loop_unfold f _ _ w), (paren_loop_unfold f' c' _ w);
    destruct (includes w [c_lparen]); cbn [negb]; auto; try discriminate.
  intros H Hc. destruct c' as [|c']; [lia|].
  destruct (paren_pass f includeSteps None w) as [[out pushed]|] eqn:E;
    [|discriminate].
  rewrite (paren_pass_mono f f' includeSteps w Hle _ _ E). cbn [bind] in *.
  destruct (str_eqb w out); [exact H|].
  destruct (paren_loop f c includeSteps out) as [y|] eqn:El; [|discriminate].
  rewrite (IH c' _ y El); [exact H | lia].
Qed.

Lemma evaluateExpression_mono (f f' : nat) (expr : option jsstring)
  (values : Assignment) (includeSteps : bool) r :
  evaluateExpression f expr values includeSteps = Some r -> f <= f' ->
  evaluateExpression f' expr values includeSteps = Some r.
Proof.
  intros H Hle. destruct expr as [[|c e]|]; try exact H.
  unfold evaluateExpression in *.
  destruct (substitute_loop values (c :: e)) as [res1 pushedS].
  destruct (paren_loop f f includeSteps res1) as [[res2 pushedP]|] eqn:Ep;
    [|discriminate].
  rewrite (paren_loop_mono f f' includeSteps Hle f f' res1 _ Ep Hle).
  cbn [bind] in *.
  destruct (evaluateSubExpression f res2 _) as [y|] eqn:Es; [|discriminate].
  rewrite (evaluateSubExpression_mono f f' _ _ _ Es Hle). exact H.
Qed.

(** With fuel for as many passes as the expression has characters,
    [evaluateExpression] returns. *)
Lemma evaluateExpression_total (fuel : nat) (e : jsstring)
  (values : Assignment) (includeSteps : bool) :
  length e <= fuel ->
  exists r, evaluateExpression fuel (Some e) values includeSteps = Some r.
Proof.
  intros Hlen. destruct e as [|c e]; [simpl; eauto|].
  unfold evaluateExpression.
  pose proof (substituted_length values (c :: e)) as Hs.
  unfold substituted in Hs.
  destruct (substitute_loop values (c :: e)) as [res1 pushedS].
  cbn [fst] in Hs.
  destruct (paren_loop_total fuel includeSteps fuel res1)
    as (res2 & pushedP & -> & Hl2).
  { lia. }
  { pose proof (count_open_le_length res1). lia. }
  cbn [bind].
  destruct (evaluateSubExpression_total fuel res2
              (push_all (push_all (if includeSteps then Some [] else None)
                                  [substituted_step res1]) pushedP))
    as (b & st & ->); [lia|].
  cbn [bind]. destruct includeSteps; eauto.
Qed.

(* ================================================================= *)
(** ** Termination *)

Lemma not_loop_abort (fuel : nat) (w : jsstring) :
  fst (not_pass w) = w -> not_loop (S fuel) w = Some (w, []).
Proof.
  intros E. rewrite not_loop_unfold.
  destruct (includes w [c_not]); cbn [negb]; [|reflexivity].
  rewrite E, str_eqb_refl.
  pose proof (not_pass_length w) as L. rewrite E in L.
  destruct (snd (not_pass w)); [reflexivity | simpl in L; lia].
Qed.

Lemma op_loop_abort (fuel : nat) (op : binop) (w : jsstring) :
  fst (op_pass op w) = w -> op_loop (S fuel) op w = Some (w, []).
Proof.
  intros E. rewrite op_loop_unfold.
  destruct (has_match op w) eqn:Em; cbn [negb]; [|reflexivity].
  apply op_pass_shortens in Em. rewrite E in Em. lia.
Qed.

Lemma paren_loop_abort (fuel count : nat) (includeSteps : bool)
  (w : jsstring) (pushed : list Step) :
  length w <= fuel ->
  paren_pass fuel includeSteps None w = Some (w, pushed) ->
  paren_loop fuel (S count) includeSteps w = Some (w, []).
Proof.
  intros Hlen E. rewrite paren_loop_unfold.
  destruct (includes w [c_lparen]); cbn [negb]; [|reflexivity].
  destruct (paren_pass_top fuel includeSteps w Hlen)
    as (out & p & E' & Hc & _ & _).
  rewrite E in E'. injection E' as <- <-.
  rewrite E. cbn [bind]. rewrite str_eqb_refl.
  destruct pushed; [reflexivity | simpl in Hc; lia].
Qed.

(** C4. [evaluateExpression] returns, and returns the same result
    whatever the fuel, once there is fuel for as many passes as the
    expression has characters: the result holds one boolean.  A pass
    over the parentheses either returns its input or lowers the number
    of [(]; a pass for [¬] or for a binary operator either returns its
    input or shortens the string; and a loop whose pass returns its
    input stops there.  This holds for every expression and every
    assignment, hence for the valid expressions and the total
    assignments. *)
Theorem evaluateExpression_terminates (e : jsstring) (values : Assignment)
  (includeSteps : bool) :
  (exists r : EvaluationResult,
      forall fuel, length e <= fuel ->
        evaluateExpression fuel (Some e) values includeSteps = Some r)
  /\ (forall fuel w, length w <= fuel ->
        exists out pushed,
          paren_pass fuel includeSteps None w = Some (out, pushed)
          /\ (out = w \/ count_open out < count_open w)
          /\ (out = w ->
              forall count,
                paren_loop fuel (S count) includeSteps w = Some (w, [])))
  /\ (forall w,
        (fst (not_pass w) = w \/ length (fst (not_pass w)) < length w)
        /\ (fst (not_pass w) = w ->
            forall fuel, not_loop (S fuel) w = Some (w, [])))
  /\ (forall op w,
        (fst (op_pass op w) = w
         \/ length (fst (op_pass op w)) < length w)
        /\ (has_match op w = true ->
            length (fst (op_pass op w)) < length w)
        /\ (fst (op_pass op w) = w ->
            forall fuel, op_loop (S fuel) op w = Some (w, []))).
Proof.
  split; [|split; [|split]].
  - destruct (evaluateExpression_total (length e) e values includeSteps
                (le_n _)) as [r Hr].
    exists r. intros fuel Hlen.
    exact (evaluateExpression_mono _ fuel _ _ _ _ Hr Hlen).
  - intros fuel w Hlen.
    destruct (paren_pass_top fuel includeSteps w Hlen)
      as (out & pushed & E & Hc & Hl & Hu).
    exists out, pushed. split; [exact E|]. split.
    + destruct pushed; [left; auto | right; simpl in Hc; lia].
    + intros -> count. exact (paren_loop_abort _ count _ _ _ Hlen E).
  - intros w. split.
    + pose proof (not_pass_length w) as L.
      destruct (snd (not_pass w)) eqn:E.
      * left. apply not_pass_unchanged, E.
      * right. simpl in L. lia.
    + intros E fuel. apply not_loop_abort, E.
  - intros op w. split; [|split].
    + pose proof (op_pass_length op w) as L.
      destruct (snd (op_pass op w)) eqn:E.
      * left. apply op_pass_unchanged, E.
      * right. simpl in L. lia.
    + apply op_pass_shortens.
    + intros E fuel. apply op_loop_abort, E.
Qed.

Lemma evaluateExpression_terminates_witness :
  exists r,
    evaluateExpression 7
      (Some ([name Vp; c_and; c_lparen; name Vq; c_or; name Vr; c_rparen]))
      [(Vp, true); (Vq, false); (Vr, true)] false = Some r
    /\ result r = true.
Proof.
  destruct (evaluateExpression_terminates
              [name Vp; c_and; c_lparen; name Vq; c_or; name Vr; c_rparen]
              [(Vp, true); (Vq, false); (Vr, true)] false)
    as [[r Hr] _].
  exists r. assert (H := Hr 7 (le_n 7)). split; [exact H|].
  vm_compute in H. injection H as <-. reflexivity.
Defined.

(* ================================================================= *)
(** ** Variables of the assignment that the expression does not use *)

Lemma substitute_loop_assign (values : Assignment) (v : Var) (b : bool) :
  forall w, ~ In (name v) w ->
    substitute_loop (assign values v b) w = substitute_loop values w.
Proof.
  induction values as [|[u c] rest IH]; intros w Hn.
  - cbn [assign]. rewrite substitute_loop_cons. cbv zeta.
    rewrite (replace_variable_absent _ _ _ _ Hn), str_eqb_refl.
    reflexivity.
  - cbn [assign]. destruct (Var_eqb u v) eqn:E.
    + apply Var_eqb_eq in E. subst u.
      rewrite !substitute_loop_cons. cbv zeta.
      rewrite !(replace_variable_absent _ _ _ _ Hn), str_eqb_refl.
      reflexivity.
    + rewrite !substitute_loop_cons. cbv zeta. rewrite IH; [reflexivity|].
      intros H. apply replace_variable_in in H. destruct H as [H | H].
      * exact (Hn H).
      * exact (name_not_bit _ _ H).
Qed.

(** C7. Adding to the assignment (or overwriting in it) a variable
    that does not occur in the expression changes neither the result
    nor any of the step lists. *)
Theorem evaluateExpression_ignores_unused_variable (fuel : nat)
  (expr : option jsstring) (values : Assignment) (includeSteps : bool)
  (v : Var) (b : bool) :
  ~ occurs (name v) expr ->
  evaluateExpression fuel expr (assign values v b) includeSteps
  = evaluateExpression fuel expr values includeSteps.
Proof.
  intros Hn. destruct expr as [[|c e]|]; try reflexivity.
  unfold evaluateExpression.
  rewrite (substitute_loop_assign values v b (c :: e) Hn). reflexivity.
Qed.

Lemma evaluateExpression_ignores_unused_variable_witness :
  ~ occurs (name Vz) (Some [name Vp; c_impl; name Vq])
  /\ evaluateExpression 3 (Some [name Vp; c_impl; name Vq])
       (assign [(Vp, true); (Vq, false)] Vz true) true
     = evaluateExpression 3 (Some [name Vp; c_impl; name Vq])
       [(Vp, true); (Vq, false)] true.
Proof.
  assert (H : ~ occurs (name Vz) (Some [name Vp; c_impl; name Vq])).
  { simpl. intros [H | [H | [H | []]]]; discriminate. }
  split; [exact H|].
  exact (evaluateExpression_ignores_unused_variable 3 _ _ true Vz true H).
Defined.

(* ================================================================= *)
(** ** A variable without an entry in the assignment *)

Lemma not_loop_keeps (u : codeunit) (fuel : nat) (w final : jsstring)
  (tr : list Step) :
  u <> c_not -> is_bit u = false ->
  not_loop fuel w = Some (final, tr) -> In u w -> In u final.
Proof.
  intros Hn Hb. revert fuel w final tr.
  apply (not_loop_cases (fun w final _ => In u w -> In u final)); auto.
  intros w final more _ IH H. apply IH, not_pass_keeps; assumption.
Qed.

Lemma op_loop_keeps (u : codeunit) (fuel : nat) (op : binop)
  (w final : jsstring) (tr : list Step) :
  u <> symbol op -> is_bit u = false ->
  op_loop fuel op w = Some (final, tr) -> In u w -> In u final.
Proof.
  intros Hn Hb. revert fuel w final tr.
  apply (op_loop_cases op (fun w final _ => In u w -> In u final)); auto.
  intros w final more _ IH H. apply IH, op_pass_keeps; assumption.
Qed.

Lemma operators_loop_keeps (u : codeunit) (fuel : nat) (ops : list binop) :
  (forall op, u <> symbol op) -> is_bit u = false ->
  forall w final tr,
    operators_loop fuel ops w = Some (final, tr) -> In u w -> In u final.
Proof.
  intros Hn Hb. induction ops as [|op ops IH]; intros w final tr; simpl.
  - intros [= <- <-]. auto.
  - destruct (op_loop fuel op w) as [[w1 t1]|] eqn:E1; cbn [bind];
      [|discriminate].
    destruct (operators_loop fuel ops w1) as [[w2 t2]|] eqn:E2; cbn [bind];
      [|discriminate].
    intros [= <- <-] H. eapply IH; [exact E2|].
    eapply op_loop_keeps; eauto.
Qed.

(** A character that is neither a digit nor an operator is still in
    the working string when [evaluateSubExpression] returns, which
    therefore returns [false]. *)
Lemma evaluateSubExpression_leftover (u : codeunit) (fuel : nat)
  (w : jsstring) (steps : option (list Step)) (b : bool) steps' :
  u <> c_not -> (forall op, u <> symbol op) -> is_bit u = false ->
  In u w ->
  evaluateSubExpression fuel w steps = Some (b, steps') -> b = false.
Proof.
  intros Hn Ho Hb Hin. unfold evaluateSubExpression, reduceSubExpression.
  destruct (not_loop fuel w) as [[w0 t0]|] eqn:E0; cbn [bind];
    [|discriminate].
  destruct (operators_loop fuel operatorOrder w0) as [[w1 t1]|] eqn:E1;
    cbn [bind]; [|discriminate].
  intros [= <- _].
  assert (H1 : In u w1).
  { eapply operators_loop_keeps; eauto. eapply not_loop_keeps; eauto. }
  apply str_eqb_neq. intros ->. destruct H1 as [<- | []].
  discriminate.
Qed.

Lemma name_not_operator (v : Var) :
  name v <> c_not /\ (forall op, name v <> symbol op)
  /\ is_bit (name v) = false /\ name v <> c_lparen.
Proof.
  split; [destruct v; discriminate|].
  split; [intros op; destruct v, op; discriminate|].
  split; [destruct v; reflexivity | destruct v; discriminate].
Qed.

Lemma substituted_keeps (values : Assignment) (v : Var) :
  has_key values v = false ->
  forall e, In (name v) e -> In (name v) (substituted values e).
Proof.
  unfold substituted, has_key.
  induction values as [|[u c] rest IH]; intros Hk e Hin; [exact Hin|].
  cbn [existsb fst] in Hk. apply orb_false_iff in Hk. destruct Hk as [Hu Hk].
  rewrite substitute_loop_cons. cbn [fst]. apply IH; [exact Hk|].
  apply replace_variable_keeps; [|exact Hin].
  intros E. unfold Var_eqb in Hu. apply N.eqb_neq in Hu. congruence.
Qed.

Lemma substituted_no_paren (values : Assignment) (e : jsstring) :
  ~ In c_lparen e -> ~ In c_lparen (substituted values e).
Proof.
  unfold substituted. revert e.
  induction values as [|[u c] rest IH]; intros e Hn; [exact Hn|].
  rewrite substitute_loop_cons. cbn [fst]. apply IH.
  intros H. apply replace_variable_in in H. destruct H as [H | H].
  - exact (Hn H).
  - destruct c; discriminate.
Qed.

Lemma evaluateExpression_cons (fuel : nat) (c : codeunit) (e : jsstring)
  (values : Assignment) (includeSteps : bool) :
  evaluateExpression fuel (Some (c :: e)) values includeSteps
  = let res1 := substituted values (c :: e) in
    let pushedS := snd (substitute_loop values (c :: e)) in
    ' (res2, pushedP) <- paren_loop fuel fuel includeSteps res1 ;;
    ' (finalResult, steps3) <-
        evaluateSubExpression fuel res2
          (push_all (push_all (if includeSteps then Some [] else None)
                              [substituted_step res1]) pushedP) ;;
    if includeSteps then
      Some (mkResult finalResult (array steps3)
              (push_all (Some [original_step (c :: e)]) pushedS)
              (Some (c :: e)))
    else Some (mkResult finalResult [] None None).
Proof.
  unfold evaluateExpression, substituted.
  destruct (substitute_loop values (c :: e)) as [res1 pushedS].
  destruct includeSteps; reflexivity.
Qed.

(** C9, on the code: in ["¬(p)"] the parenthesis around the
    unassigned [p] evaluates to ['0'], and the negation makes the
    result [true]. *)
Lemma unassigned_variable_can_give_true :
  ~ unassigned_gives_false 4 expr_not_paren_p [].
Proof.
  intros H. destruct (H Vp) as (r & Hr & Hres).
  - right. right. left. reflexivity.
  - reflexivity.
  - vm_compute in Hr. injection Hr as <-. discriminate.
Qed.

(** C9, amended.  A variable of the expression that has no entry in
    the assignment is still in the working string after the
    substitution, and no error arises.  If it is still there after the
    parentheses are resolved -- as it is when the expression has no
    parenthesis -- the reduced string is not ['1'] and the call returns
    [{result: false, steps: []}]. *)
Theorem evaluateExpression_unassigned_variable (fuel : nat) (e : jsstring)
  (values : Assignment) (v : Var) :
  length e <= fuel ->
  In (name v) e ->
  has_key values v = false ->
  In (name v) (substituted values e)
  /\ (forall res2 pushed,
        paren_loop fuel fuel false (substituted values e)
          = Some (res2, pushed) ->
        In (name v) res2 ->
        evaluateExpression fuel (Some e) values false
          = Some (mkResult false [] None None))
  /\ (~ In c_lparen e ->
      evaluateExpression fuel (Some e) values false
        = Some (mkResult false [] None None)).
Proof.
  intros Hlen Hin Hk.
  pose proof (substituted_keeps values v Hk e Hin) as Hs.
  destruct (name_not_operator v) as (Hn & Ho & Hb & _).
  assert (Hgen : forall res2 pushed,
             paren_loop fuel fuel false (substituted values e)
               = Some (res2, pushed) ->
             In (name v) res2 ->
             evaluateExpression fuel (Some e) values false
               = Some (mkResult false [] None None)).
  { intros res2 pushed Ep Hin2.
    destruct e as [|c e]; [destruct Hin|].
    rewrite evaluateExpression_cons. cbv zeta. rewrite Ep. cbn [bind].
    assert (Hf : length res2 <= fuel).
    { destruct (paren_loop_total fuel false fuel
                  (substituted values (c :: e))) as (f & m & Ef & Hfl).
      - rewrite substituted_length. exact Hlen.
      - pose proof (count_open_le_length (substituted values (c :: e))).
        rewrite substituted_length in *. lia.
      - rewrite Ep in Ef. injection Ef as <- <-.
        rewrite substituted_length in Hfl. lia. }
    destruct (evaluateSubExpression_total fuel res2
                (push_all (push_all None
                             [substituted_step (substituted values (c :: e))])
                          pushed) Hf) as (b & st & Es).
    rewrite Es. cbn [bind].
    rewrite (evaluateSubExpression_leftover _ _ _ _ _ _ Hn Ho Hb Hin2 Es).
    reflexivity. }
  split; [exact Hs|]. split; [exact Hgen|].
  intros Hnp. apply (Hgen (substituted values e) []); [|exact Hs].
  rewrite paren_loop_unfold.
  assert (Ei : includes (substituted values e) [c_lparen] = false).
  { destruct (includes _ _) eqn:E; [|reflexivity].
    apply includes_char in E. elim (substituted_no_paren values e Hnp E). }
  rewrite Ei. reflexivity.
Qed.

Lemma evaluateExpression_unassigned_variable_witness :
  (length (lit "p") <= 1 /\ In (name Vp) (lit "p") /\ has_key [] Vp = false
   /\ ~ In c_lparen (lit "p"))
  /\ evaluateExpression 1 (Some (lit "p")) [] false
     = Some (mkResult false [] None None).
Proof.
  assert (H1 : length (lit "p") <= 1) by (simpl; lia).
  assert (H2 : In (name Vp) (lit "p")) by (left; reflexivity).
  assert (H3 : has_key [] Vp = false) by reflexivity.
  assert (H4 : ~ In c_lparen (lit "p"))
    by (intros [H | []]; discriminate).
  split; [repeat split; assumption|].
  exact (proj2 (proj2 (evaluateExpression_unassigned_variable
                         1 (lit "p") [] Vp H1 H2 H3)) H4).
Defined.

(* ================================================================= *)
(** ** The records of the substitution phase *)

Lemma flat_map_seq_shift {A : Type} (f : nat -> list A) (n : nat) :
  flat_map f (seq 1 n) = flat_map (fun k => f (S k)) (seq 0 n).
Proof.
  rewrite <- seq_shift. induction (seq 0 n) as [|k l IH]; simpl;
    [reflexivity | rewrite IH; reflexivity].
Qed.

Lemma substituted_cons (v : Var) (b : bool) (rest : Assignment)
  (e : jsstring) :
  substituted ((v, b) :: rest) e
  = substituted rest (replace_variable false (name v) (bit_char b) e).
Proof. unfold substituted. rewrite substitute_loop_cons. reflexivity. Qed.

(** The records pushed by the loop over the entries are the ones the
    specification describes for the variables. *)
Lemma substitute_loop_pushed (values : Assignment) (e : jsstring) :
  snd (substitute_loop values e) = variable_steps values e.
Proof.
  revert e. induction values as [|[v b] rest IH]; intros e; [reflexivity|].
  rewrite substitute_loop_cons. cbv zeta. cbn [snd]. rewrite IH.
  unfold variable_steps. cbn [length seq flat_map nth_error firstn].
  rewrite substituted_cons. change (substituted [] ?x) with x.
  cbn [firstn]. change (substituted [] e) with e.
  destruct (str_eqb e _); cbn [negb]; (f_equal || idtac);
    rewrite flat_map_seq_shift; apply flat_map_ext; intros k;
    cbn [nth_error firstn]; destruct (nth_error rest k) as [[u c]|];
    try reflexivity; rewrite !substituted_cons; reflexivity.
Qed.

(** C6, on the code: for ["p"] with [{p: true}] the list
    [substitutionSteps] starts with the record of the original
    expression and has no record of the fully substituted string. *)
Lemma substitutionSteps_not_as_described :
  ~ substitutionSteps_as_described 1 (lit "p") [(Vp, true)].
Proof.
  intros (r & Hr & Hs). vm_compute in Hr. injection Hr as <-.
  vm_compute in Hs. discriminate.
Qed.

(** C6, amended.  With a trace, [substitutionSteps] holds first the
    record of the original expression, then one record per entry of
    the assignment whose replacement changed the working string (the
    variable, its value, the string after that replacement), and
    nothing else; the record of the string with all variables replaced
    is the first element of [steps]. *)
Theorem substitutionSteps_content (fuel : nat) (e : jsstring)
  (values : Assignment) :
  e <> [] ->
  length e <= fuel ->
  exists r rest,
    evaluateExpression fuel (Some e) values true = Some r
    /\ substitutionSteps r
       = Some (original_step e :: variable_steps values e)
    /\ steps r = substituted_step (substituted values e) :: rest.
Proof.
  intros Hne Hlen. destruct e as [|c e]; [congruence|].
  rewrite evaluateExpression_cons. cbv zeta.
  destruct (paren_loop_total fuel true fuel (substituted values (c :: e)))
    as (res2 & pushedP & -> & Hl2).
  { rewrite substituted_length. exact Hlen. }
  { pose proof (count_open_le_length (substituted values (c :: e))).
    rewrite substituted_length in *. lia. }
  cbn [bind]. unfold evaluateSubExpression.
  destruct (reduceSubExpression_total fuel res2) as (final & pushed & -> & _).
  { rewrite substituted_length in Hl2. lia. }
  cbn [bind push_all array]. rewrite substitute_loop_pushed.
  eexists. eexists. split; [reflexivity|]. cbn [substitutionSteps steps].
  split; [reflexivity|]. rewrite <- app_assoc. reflexivity.
Qed.

Lemma substitutionSteps_content_witness :
  (lit "p" <> [] /\ length (lit "p") <= 1)
  /\ exists r rest,
       evaluateExpression 1 (Some (lit "p")) [(Vp, true)] true = Some r
       /\ substitutionSteps r
          = Some [original_step (lit "p");
                  substitution_step Vp true (lit "1")]
       /\ steps r = substituted_step (lit "1") :: rest.
Proof.
  assert (H1 : lit "p" <> []) by discriminate.
  assert (H2 : length (lit "p") <= 1) by (simpl; lia).
  split; [split; assumption|].
  exact (substitutionSteps_content 1 (lit "p") [(Vp, true)] H1 H2).
Defined.

(* ================================================================= *)
(** ** The passes perform the replacements of the specification *)

Lemma not_resolves_cons (c : codeunit) (w w' : jsstring) (tr : list Step) :
  not_resolves w w' tr -> not_resolves (c :: w) (c :: w') tr.
Proof.
  induction 1 as [w | l d r w' tr Hd _ IH]; [constructor|].
  exact (not_resolves_step (c :: l) d r (c :: w') tr Hd IH).
Qed.

Lemma not_resolves_trans (a b c : jsstring) (t1 t2 : list Step) :
  not_resolves a b t1 -> not_resolves b c t2 -> not_resolves a c (t1 ++ t2).
Proof.
  induction 1 as [w | l d r w' tr Hd _ IH]; intros H2; [exact H2|].
  simpl. constructor; auto.
Qed.

Lemma not_pass_resolves (w : jsstring) :
  not_resolves w (fst (not_pass w)) (snd (not_pass w)).
Proof.
  induction w as [| c | c d r IHr IHd] using scan2_ind;
    try (simpl; constructor).
  rewrite not_pass_cons2. destruct (not_redex_at c d) eqn:E; cbn [fst snd].
  - unfold not_redex_at in E. apply andb_true_iff in E. destruct E as [Ec Ed].
    apply N.eqb_eq in Ec. subst c.
    apply (not_resolves_step [] d r _ _ Ed).
    apply not_resolves_cons, IHr.
  - apply not_resolves_cons, IHd.
Qed.

Lemma not_pass_no_redex (w : jsstring) :
  snd (not_pass w) = [] -> no_not_redex w.
Proof.
  intros H l. revert w H. induction l as [|c l IH]; intros w H d r ->.
  - cbn [app] in H. rewrite not_pass_cons2 in H.
    unfold not_redex_at in H. change (N.eqb c_not c_not) with true in H.
    cbn [andb] in H. destruct (is_bit d); [discriminate | reflexivity].
  - cbn [app] in H. destruct (l ++ c_not :: d :: r) as [|c' r'] eqn:E.
    + destruct l; discriminate.
    + rewrite not_pass_cons2 in H.
      destruct (not_redex_at c c'); [discriminate|].
      cbn [snd] in H. rewrite <- E in H. exact (IH _ H d r eq_refl).
Qed.

Lemma not_loop_resolves (fuel : nat) (w final : jsstring) (tr : list Step) :
  not_loop fuel w = Some (final, tr) ->
  not_resolves w final tr /\ no_not_redex final.
Proof.
  revert fuel w final tr.
  apply (not_loop_cases
           (fun w final tr => not_resolves w final tr /\ no_not_redex final)).
  - intros w H. split; [constructor | apply not_pass_no_redex, H].
  - intros w final more _ [IH1 IH2]. split; [|exact IH2].
    eapply not_resolves_trans; [apply not_pass_resolves | exact IH1].
Qed.

Lemma op_resolves_cons (op : binop) (c : codeunit) (w w' : jsstring)
  (tr : list Step) :
  op_resolves op w w' tr -> op_resolves op (c :: w) (c :: w') tr.
Proof.
  induction 1 as [w | l a b r w' tr Ha Hb _ IH]; [constructor|].
  exact (op_resolves_step op (c :: l) a b r (c :: w') tr Ha Hb IH).
Qed.

Lemma op_resolves_trans (op : binop) (a b c : jsstring)
  (t1 t2 : list Step) :
  op_resolves op a b t1 -> op_resolves op b c t2 ->
  op_resolves op a c (t1 ++ t2).
Proof.
  induction 1 as [w | l x y r w' tr Hx Hy _ IH]; intros H2; [exact H2|].
  simpl. constructor; auto.
Qed.

Lemma op_redex_at_true (op : binop) (a o b : codeunit) :
  op_redex_at op a o b = true ->
  is_bit a = true /\ o = symbol op /\ is_bit b = true.
Proof.
  unfold op_redex_at. rewrite !andb_true_iff, N.eqb_eq. tauto.
Qed.

Lemma op_pass_resolves (op : binop) (w : jsstring) :
  op_resolves op w (fst (op_pass op w)) (snd (op_pass op w)).
Proof.
  induction w as [| a | a b | a o b r IHr IHo] using scan3_ind;
    try (simpl; constructor).
  rewrite op_pass_cons3. destruct (op_redex_at op a o b) eqn:E;
    cbn [fst snd].
  - apply op_redex_at_true in E. destruct E as (Ha & -> & Hb).
    apply (op_resolves_step op [] a b r _ _ Ha Hb).
    apply op_resolves_cons, IHr.
  - apply op_resolves_cons, IHo.
Qed.

Lemma has_match_tail (op : binop) (c : codeunit) (w : jsstring) :
  has_match op (c :: w) = false -> has_match op w = false.
Proof.
  destruct w as [|o [|b r]]; try reflexivity.
  rewrite has_match_cons3. intros H. apply orb_false_iff in H. apply H.
Qed.

Lemma has_match_no_redex (op : binop) (w : jsstring) :
  has_match op w = false -> no_op_redex op w.
Proof.
  intros H l. revert w H. induction l as [|c l IH]; intros w H a b r ->.
  - cbn [app] in H. rewrite has_match_cons3 in H.
    apply orb_false_iff in H. destruct H as [H _].
    unfold op_redex_at in H. rewrite N.eqb_refl, andb_true_r in H. exact H.
  - cbn [app] in H. apply has_match_tail in H. exact (IH _ H a b r eq_refl).
Qed.

Lemma op_loop_resolves (fuel : nat) (op : binop) (w final : jsstring)
  (tr : list Step) :
  op_loop fuel op w = Some (final, tr) ->
  op_resolves op w final tr /\ has_match op final = false.
Proof.
  revert fuel w final tr.
  apply (op_loop_cases op
           (fun w final tr =>
              op_resolves op w final tr /\ has_match op final = false)).
  - intros w H. split; [constructor | exact H].
  - intros w final more _ [IH1 IH2]. split; [|exact IH2].
    eapply op_resolves_trans; [apply op_pass_resolves | exact IH1].
Qed.

Lemma operators_loop_phases (fuel : nat) (ops : list binop) :
  forall w final tr,
    operators_loop fuel ops w = Some (final, tr) ->
    phases no_op_redex ops w final tr.
Proof.
  induction ops as [|op ops IH]; intros w final tr; simpl.
  - intros [= <- <-]. constructor.
  - destruct (op_loop fuel op w) as [[w1 t1]|] eqn:E1; cbn [bind];
      [|discriminate].
    destruct (operators_loop fuel ops w1) as [[w2 t2]|] eqn:E2; cbn [bind];
      [|discriminate].
    intros [= <- <-]. apply op_loop_resolves in E1. destruct E1 as [R M].
    econstructor; [exact R | apply has_match_no_redex, M | apply IH, E2].
Qed.

(* ================================================================= *)
(** ** Flat expressions *)

Lemma is_bit_char (c : codeunit) :
  is_bit c = true -> exists b, c = bit_char b.
Proof.
  unfold is_bit. rewrite orb_true_iff, !N.eqb_eq.
  intros [-> | ->]; [exists false | exists true]; reflexivity.
Qed.

Lemma bit_char_is_bit (b : bool) : is_bit (bit_char b) = true.
Proof. destruct b; reflexivity. Qed.

Lemma bit_not_operator (c : codeunit) :
  is_bit c = true -> N.eqb c c_not = false /\ is_binop c = false.
Proof.
  intros H. apply is_bit_char in H. destruct H as [[] ->]; split; reflexivity.
Qed.

Lemma is_binop_symbol (c : codeunit) :
  is_binop c = true <-> exists op, c = symbol op.
Proof.
  unfold is_binop. rewrite existsb_exists. split.
  - intros (op & _ & H). apply N.eqb_eq in H. eauto.
  - intros (op & ->). exists op. split; [|apply N.eqb_refl].
    destruct op; simpl; tauto.
Qed.

Lemma symbol_not_bit (op : binop) :
  is_bit (symbol op) = false /\ N.eqb (symbol op) c_not = false.
Proof. destruct op; split; reflexivity. Qed.

Lemma flat_from_cons (m : bool) (c : codeunit) (r : jsstring) :
  flat_from m (c :: r)
  = if m then
      if N.eqb c c_not then flat_from true r
      else is_bit c && flat_from false r
    else is_binop c && flat_from true r.
Proof. reflexivity. Qed.

(** What a well-formed string tells about its first character and
    its tail. *)
Lemma flat_from_inv (m : bool) (c : codeunit) (r : jsstring) :
  flat_from m (c :: r) = true ->
  (m = true /\ c = c_not /\ flat_from true r = true)
  \/ (m = true /\ is_bit c = true /\ flat_from false r = true)
  \/ (m = false /\ is_binop c = true /\ flat_from true r = true).
Proof.
  rewrite flat_from_cons. destruct m.
  - destruct (N.eqb_spec c c_not) as [->|_]; [auto|].
    rewrite andb_true_iff. intros []. auto.
  - rewrite andb_true_iff. intros []. auto.
Qed.

Lemma flat_from_bit (c : codeunit) (r : jsstring) :
  is_bit c = true -> flat_from false r = true ->
  flat_from true (c :: r) = true.
Proof.
  intros Hc Hr. rewrite flat_from_cons.
  destruct (bit_not_operator c Hc) as [-> _]. rewrite Hc, Hr. reflexivity.
Qed.

Lemma flat_from_step (m m' : bool) (c : codeunit) (r r' : jsstring) :
  flat_from m (c :: r) = true ->
  (forall m', flat_from m' r = true -> flat_from m' r' = true) ->
  flat_from m (c :: r') = true.
Proof.
  rewrite !flat_from_cons. intros H Hr. destruct m.
  - destruct (N.eqb c c_not); [auto|].
    apply andb_true_iff in H. destruct H as [-> H]. apply Hr, H.
  - apply andb_true_iff in H. destruct H as [-> H]. apply Hr, H.
Qed.

Lemma flat_not_pass (w : jsstring) :
  forall m, flat_from m w = true -> flat_from m (fst (not_pass w)) = true.
Proof.
  induction w as [| c | c d r IHr IHd] using scan2_ind; try (intros; assumption).
  intros m H. rewrite not_pass_cons2.
  destruct (not_redex_at c d) eqn:E; cbn [fst].
  - unfold not_redex_at in E. apply andb_true_iff in E. destruct E as [Ec Ed].
    apply N.eqb_eq in Ec. subst c.
    apply flat_from_inv in H.
    destruct H as [(-> & _ & H) | [(_ & H & _) | (_ & H & _)]];
      try discriminate.
    apply flat_from_inv in H.
    destruct H as [(_ & -> & _) | [(_ & _ & H) | (H & _)]];
      try discriminate.
    apply flat_from_bit; [apply bit_char_is_bit | apply IHr, H].
  - exact (flat_from_step m m c (d :: r) _ H IHd).
Qed.

Lemma flat_has_not_redex (w : jsstring) :
  forall m, flat_from m w = true -> In c_not w -> snd (not_pass w) <> [].
Proof.
  induction w as [| c | c d r IHr IHd] using scan2_ind; intros m H Hin.
  - destruct Hin.
  - destruct Hin as [-> | []]. destruct m; discriminate.
  - rewrite not_pass_cons2. destruct (not_redex_at c d) eqn:E; cbn [snd];
      [discriminate|].
    apply flat_from_inv in H.
    destruct H as [(-> & -> & H) | [(-> & Hc & H) | (-> & Hc & H)]].
    + apply (IHd true H). unfold not_redex_at in E.
      change (N.eqb c_not c_not) with true in E. cbn [andb] in E.
      apply flat_from_inv in H.
      destruct H as [(_ & -> & _) | [(_ & H & _) | (H & _)]];
        try congruence. left. reflexivity.
    + apply (IHd false H).
      destruct Hin as [-> | Hin]; [discriminate Hc | exact Hin].
    + apply (IHd true H).
      destruct Hin as [-> | Hin]; [discriminate Hc | exact Hin].
Qed.

Lemma not_loop_flat (fuel : nat) (w final : jsstring) (tr : list Step) :
  not_loop fuel w = Some (final, tr) ->
  flat_wf w = true -> flat_wf final = true /\ ~ In c_not final.
Proof.
  revert fuel w final tr.
  apply (not_loop_cases
           (fun w final _ =>
              flat_wf w = true -> flat_wf final = true /\ ~ In c_not final)).
  - intros w H Hw. split; [exact Hw|]. intros Hin.
    exact (flat_has_not_redex w true Hw Hin H).
  - intros w final more _ IH Hw. apply IH, flat_not_pass, Hw.
Qed.

Lemma flat_op_pass (op : binop) (w : jsstring) :
  forall m, flat_from m w = true ->
            flat_from m (fst (op_pass op w)) = true.
Proof.
  induction w as [| a | a b | a o b r IHr IHo] using scan3_ind;
    try (intros; assumption).
  intros m H. rewrite op_pass_cons3.
  destruct (op_redex_at op a o b) eqn:E; cbn [fst].
  - apply op_redex_at_true in E. destruct E as (Ha & -> & Hb).
    destruct (bit_not_operator a Ha) as [Ha1 Ha2].
    destruct (bit_not_operator b Hb) as [Hb1 Hb2].
    apply flat_from_inv in H.
    destruct H as [(_ & -> & _) | [(-> & _ & H) | (_ & H & _)]];
      try discriminate; try congruence.
    apply flat_from_inv in H.
    destruct H as [(H & _) | [(H & _) | (_ & _ & H)]]; try discriminate.
    apply flat_from_inv in H.
    destruct H as [(_ & -> & _) | [(_ & _ & H) | (H & _)]];
      try discriminate.
    apply flat_from_bit; [apply bit_char_is_bit | apply IHr, H].
  - exact (flat_from_step m m a (o :: b :: r) _ H IHo).
Qed.

(** In a string of digits separated by operators, an operator without
    a match does not occur. *)
Lemma flat_no_match_absent (op : binop) (w : jsstring) :
  flat_from true w = true -> ~ In c_not w -> has_match op w = false ->
  ~ In (symbol op) w.
Proof.
  destruct (symbol_not_bit op) as [Sb Sn].
  induction w as [| a | a o r0 IH _] using scan2_ind; intros H Hn Hm Hin.
  - destruct Hin.
  - destruct Hin as [-> | []].
    apply flat_from_inv in H.
    destruct H as [(_ & H & _) | [(_ & H & _) | (H & _)]];
      try discriminate; try congruence.
    rewrite H in Sn. discriminate.
  - apply flat_from_inv in H.
    destruct H as [(_ & -> & _) | [(_ & Ha & H) | (H & _)]];
      try discriminate; [elim Hn; left; reflexivity|].
    apply flat_from_inv in H.
    destruct H as [(H & _) | [(H & _) | (_ & Ho & H)]]; try discriminate.
    destruct r0 as [|b r]; [discriminate|].
    assert (Hn' : ~ In c_not (b :: r)) by (intros X; apply Hn; right; right; exact X).
    pose proof H as Hb. apply flat_from_inv in Hb.
    destruct Hb as [(_ & -> & _) | [(_ & Hb & _) | (Hb & _)]];
      try discriminate; [elim Hn'; left; reflexivity|].
    rewrite has_match_cons3 in Hm. apply orb_false_iff in Hm.
    destruct Hm as [Hr Hm]. apply has_match_tail in Hm.
    unfold op_redex_at in Hr. rewrite Ha, Hb, andb_true_r in Hr.
    cbn [andb] in Hr. apply N.eqb_neq in Hr.
    destruct Hin as [E | [E | Hin]]; try congruence.
    exact (IH H Hn' Hm Hin).
Qed.

Lemma flat_single_digit (w : jsstring) :
  flat_wf w = true -> ~ In c_not w ->
  (forall op, ~ In (symbol op) w) ->
  exists b, w = [bit_char b].
Proof.
  unfold flat_wf. intros H Hn Ho. destruct w as [|a r]; [discriminate|].
  apply flat_from_inv in H.
  destruct H as [(_ & -> & _) | [(_ & Ha & H) | (H & _)]];
    try discriminate; [elim Hn; left; reflexivity|].
  apply is_bit_char in Ha. destruct Ha as [b ->]. exists b.
  destruct r as [|o r]; [reflexivity|].
  apply flat_from_inv in H.
  destruct H as [(H & _) | [(H & _) | (_ & H & _)]]; try discriminate.
  apply is_binop_symbol in H. destruct H as [op ->].
  elim (Ho op). right. left. reflexivity.
Qed.

Lemma op_loop_absent (u : codeunit) (fuel : nat) (op : binop)
  (w final : jsstring) (tr : list Step) :
  is_bit u = false ->
  op_loop fuel op w = Some (final, tr) -> ~ In u w -> ~ In u final.
Proof.
  intros Hb. revert fuel w final tr.
  apply (op_loop_cases op (fun w final _ => ~ In u w -> ~ In u final)); auto.
  intros w final more _ IH Hn. apply IH. intros H.
  apply op_pass_in in H. destruct H; [auto | congruence].
Qed.

Lemma op_loop_flat (fuel : nat) (op : binop) (w final : jsstring)
  (tr : list Step) :
  op_loop fuel op w = Some (final, tr) ->
  flat_wf w = true -> ~ In c_not w ->
  flat_wf final = true /\ ~ In c_not final /\ ~ In (symbol op) final.
Proof.
  intros E Hw Hn. split; [|split].
  - clear Hn. revert fuel w final tr E Hw.
    apply (op_loop_cases op
             (fun w final _ => flat_wf w = true -> flat_wf final = true));
      auto.
    intros w final more _ IH Hw. apply IH, flat_op_pass, Hw.
  - exact (op_loop_absent c_not fuel op w final tr eq_refl E Hn).
  - revert fuel w final tr E Hw Hn.
    apply (op_loop_cases op
             (fun w final _ =>
                flat_wf w = true -> ~ In c_not w -> ~ In (symbol op) final)).
    + intros w Hm Hw Hn. apply flat_no_match_absent; assumption.
    + intros w final more _ IH Hw Hn. apply IH; [apply flat_op_pass, Hw|].
      intros H. apply op_pass_in in H. destruct H; [auto | discriminate].
Qed.

Lemma operators_loop_flat (fuel : nat) (ops : list binop) :
  forall w final tr,
    operators_loop fuel ops w = Some (final, tr) ->
    flat_wf w = true -> ~ In c_not w ->
    phases (fun op w' => ~ In (symbol op) w') ops w final tr
    /\ flat_wf final = true
    /\ (forall u, is_bit u = false -> ~ In u w -> ~ In u final)
    /\ (forall op, In op ops -> ~ In (symbol op) final).
Proof.
  induction ops as [|op ops IH]; intros w final tr; simpl.
  - intros [= <- <-] Hw Hn. split; [constructor|]. split; [exact Hw|].
    split; [auto | intros op []].
  - destruct (op_loop fuel op w) as [[w1 t1]|] eqn:E1; cbn [bind];
      [|discriminate].
    destruct (operators_loop fuel ops w1) as [[w2 t2]|] eqn:E2; cbn [bind];
      [|discriminate].
    intros [= <- <-] Hw Hn.
    destruct (op_loop_flat _ _ _ _ _ E1 Hw Hn) as (Hw1 & Hn1 & Ho1).
    destruct (IH _ _ _ E2 Hw1 Hn1) as (Hp & Hw2 & Habs & Hops).
    destruct (symbol_not_bit op) as [Sb _].
    split; [|split; [exact Hw2 | split]].
    + econstructor; [apply (op_loop_resolves _ _ _ _ _ E1) | exact Ho1
                     | exact Hp].
    + intros u Hu Hnu. apply (Habs u Hu).
      exact (op_loop_absent u fuel op w w1 t1 Hu E1 Hnu).
    + intros op' [<- | Hin]; [exact (Habs _ Sb Ho1) | exact (Hops _ Hin)].
Qed.

(* ================================================================= *)
(** ** Precedence *)

(** C3.  On every flat string [evaluateSubExpression] first performs
    replacements of [¬] applied to the digit that follows it, until no
    [¬] followed by a digit is left; then, for the operators in the
    order ∧, ∨, ⊼, ⊽, ⊕, ↔, →, it performs the replacements of
    [<digit><operator><digit>] for that operator alone, until no such
    occurrence is left, before the next operator is touched.  The
    records of the trace come in that order.  On a well-formed flat
    string (operands [¬...¬d] separated by binary operators) no [¬]
    at all is left after the first phase, no occurrence at all of an
    operator after its phase, and the reduced string is one digit. *)
Theorem evaluateSubExpression_precedence (fuel : nat) (s : jsstring) :
  length s <= fuel ->
  exists w0 t0 final t,
    reduceSubExpression fuel s = Some (final, t0 ++ t)
    /\ (forall steps,
          evaluateSubExpression fuel s steps
          = Some (str_eqb final [c_1], push_all steps (t0 ++ t)))
    /\ not_resolves s w0 t0
    /\ no_not_redex w0
    /\ phases no_op_redex operatorOrder w0 final t
    /\ (flat_wf s = true ->
        ~ In c_not w0
        /\ phases (fun op w => ~ In (symbol op) w) operatorOrder w0 final t
        /\ exists b, final = [bit_char b]).
Proof.
  intros Hlen.
  destruct (not_loop_total fuel s Hlen) as (w0 & t0 & E0).
  pose proof (not_loop_length _ _ _ _ E0) as L0.
  destruct (operators_loop_total fuel operatorOrder w0) as (final & t & E1);
    [lia|].
  exists w0, t0, final, t.
  assert (Er : reduceSubExpression fuel s = Some (final, t0 ++ t)).
  { unfold reduceSubExpression. rewrite E0. cbn [bind]. rewrite E1.
    reflexivity. }
  destruct (not_loop_resolves _ _ _ _ E0) as [R0 N0].
  split; [exact Er|]. split.
  { intros steps. unfold evaluateSubExpression. rewrite Er. reflexivity. }
  split; [exact R0|]. split; [exact N0|].
  split; [exact (operators_loop_phases _ _ _ _ _ E1)|].
  intros Hs. destruct (not_loop_flat _ _ _ _ E0 Hs) as [Hw0 Hn0].
  destruct (operators_loop_flat _ _ _ _ _ E1 Hw0 Hn0)
    as (Hp & Hwf & Habs & Hops).
  split; [exact Hn0|]. split; [exact Hp|].
  apply flat_single_digit; [exact Hwf | exact (Habs c_not eq_refl Hn0) |].
  intros op. apply Hops. destruct op; simpl; tauto.
Qed.

Lemma evaluateSubExpression_precedence_witness :
  (length [c_1; c_or; c_not; c_1; c_and; c_0] <= 6
   /\ flat_wf [c_1; c_or; c_not; c_1; c_and; c_0] = true)
  /\ exists b,
       reduceSubExpression 6 [c_1; c_or; c_not; c_1; c_and; c_0]
       = Some ([bit_char b],
               [not_step c_1; op_step AND c_0 c_0; op_step OR c_1 c_0]).
Proof.
  assert (H1 : length [c_1; c_or; c_not; c_1; c_and; c_0] <= 6)
    by (simpl; lia).
  assert (H2 : flat_wf [c_1; c_or; c_not; c_1; c_and; c_0] = true)
    by reflexivity.
  split; [split; assumption|].
  destruct (evaluateSubExpression_precedence
              6 [c_1; c_or; c_not; c_1; c_and; c_0] H1)
    as (w0 & t0 & final & t & Er & _ & _ & _ & _ & Hwf).
  destruct (Hwf H2) as (_ & _ & b & Hb).
  revert Er. generalize (t0 ++ t). intros tt Er.
  exists b. rewrite Er, Hb.
  vm_compute in Er. injection Er as _ Et. rewrite <- Et. reflexivity.
Defined.

(* ================================================================= *)
(** * Further properties of the evaluator *)

(* ================================================================= *)
(** ** The trace does not change the result *)

Lemma evaluateSubExpression_any_steps (fuel : nat) (w : jsstring)
  (s1 s2 : option (list Step)) (b : bool) s1' :
  evaluateSubExpression fuel w s1 = Some (b, s1') ->
  exists s2', evaluateSubExpression fuel w s2 = Some (b, s2').
Proof.
  unfold evaluateSubExpression.
  destruct (reduceSubExpression fuel w) as [[final pushed]|]; cbn [bind];
    [|discriminate].
  intros [= <- _]. eauto.
Qed.

Lemma paren_pass_untraced (fuel : nat) (includeSteps : bool) (w : jsstring) :
  forall pending out pushed,
    paren_pass fuel includeSteps pending w = Some (out, pushed) ->
    exists pushed', paren_pass fuel false pending w = Some (out, pushed').
Proof.
  induction w as [|c r IH]; intros pending out pushed; cbn [paren_pass].
  - intros [= <- _]. eauto.
  - destruct (N.eqb c c_lparen).
    + destruct (paren_pass fuel includeSteps (Some []) r) as [[o p]|] eqn:E;
        cbn [bind]; [|discriminate].
      intros [= <- _]. destruct (IH _ _ _ E) as [p' ->]. cbn [bind]. eauto.
    + destruct (N.eqb c c_rparen).
      * destruct pending as [[|a acc]|].
        -- destruct (paren_pass fuel includeSteps None r) as [[o p]|] eqn:E;
             cbn [bind]; [|discriminate].
           intros [= <- _]. destruct (IH _ _ _ E) as [p' ->]. cbn [bind].
           eauto.
        -- destruct (evaluateSubExpression fuel (rev (a :: acc)) _)
             as [[b st]|] eqn:Es; cbn [bind]; [|discriminate].
           destruct (paren_pass fuel includeSteps None r) as [[o p]|] eqn:E;
             cbn [bind]; [|discriminate].
           intros [= <- _].
           destruct (evaluateSubExpression_any_steps _ _ _ None _ _ Es)
             as [st' ->].
           destruct (IH _ _ _ E) as [p' ->]. cbn [bind]. eauto.
        -- destruct (paren_pass fuel includeSteps None r) as [[o p]|] eqn:E;
             cbn [bind]; [|discriminate].
           intros [= <- _]. destruct (IH _ _ _ E) as [p' ->]. cbn [bind].
           eauto.
      * destruct pending as [acc|]; [apply IH|].
        destruct (paren_pass fuel includeSteps None r) as [[o p]|] eqn:E;
          cbn [bind]; [|discriminate].
        intros [= <- _]. destruct (IH _ _ _ E) as [p' ->]. cbn [bind]. eauto.
Qed.

Lemma paren_loop_untraced (fuel : nat) (includeSteps : bool) :
  forall count w out pushed,
    paren_loop fuel count includeSteps w = Some (out, pushed) ->
    exists pushed', paren_loop fuel count false w = Some (out, pushed').
Proof.
  induction count as [|count IH]; intros w out pushed;
    rewrite (paren_loop_unfold _ _ includeSteps), (paren_loop_unfold _ _ false);
    destruct (includes w [c_lparen]); cbn [negb];
    try (intros [= <- _]; eauto; fail); try discriminate.
  destruct (paren_pass fuel includeSteps None w) as [[o p]|] eqn:E;
    cbn [bind]; [|discriminate].
  destruct (paren_pass_untraced _ _ _ _ _ _ E) as [p' ->]. cbn [bind].
  destruct (str_eqb w o); [intros [= <- _]; eauto|].
  destruct (paren_loop fuel count includeSteps o) as [[f m]|] eqn:El;
    cbn [bind]; [|discriminate].
  intros [= <- _]. destruct (IH _ _ _ El) as [m' ->]. cbn [bind]. eauto.
Qed.

(** Asking for the trace never changes the boolean: the call without
    trace returns the result of the traced call, with [steps: []]. *)
Theorem evaluateExpression_trace_independent (fuel : nat) (e : jsstring)
  (values : Assignment) :
  length e <= fuel ->
  exists r,
    evaluateExpression fuel (Some e) values true = Some r
    /\ evaluateExpression fuel (Some e) values false
       = Some (mkResult (result r) [] None None).
Proof.
  intros Hlen.
  destruct (evaluateExpression_total fuel e values true Hlen) as [r Hr].
  exists r. split; [exact Hr|].
  destruct e as [|c e]; [injection Hr as <-; reflexivity|].
  rewrite evaluateExpression_cons in *. cbv zeta in *.
  destruct (paren_loop fuel fuel true _) as [[res2 pushedP]|] eqn:Ep;
    cbn [bind] in Hr; [|discriminate].
  destruct (paren_loop_untraced _ _ _ _ _ _ Ep) as [p' ->]. cbn [bind].
  destruct (evaluateSubExpression fuel res2 _) as [[b st]|] eqn:Es;
    cbn [bind] in Hr; [|discriminate].
  injection Hr as <-.
  destruct (evaluateSubExpression_any_steps _ _ _
              (push_all (push_all None
                 [substituted_step (substituted values (c :: e))]) p')
              _ _ Es) as [st' ->].
  reflexivity.
Qed.

Lemma evaluateExpression_trace_independent_witness :
  length [name Vp; c_and; c_lparen; c_not; name Vq; c_rparen] <= 6
  /\ exists r,
       evaluateExpression 6
         (Some [name Vp; c_and; c_lparen; c_not; name Vq; c_rparen])
         [(Vp, true); (Vq, false)] true = Some r
       /\ evaluateExpression 6
            (Some [name Vp; c_and; c_lparen; c_not; name Vq; c_rparen])
            [(Vp, true); (Vq, false)] false
          = Some (mkResult (result r) [] None None).
Proof.
  assert (H : length [name Vp; c_and; c_lparen; c_not; name Vq; c_rparen]
              <= 6) by (simpl; lia).
  split; [exact H|].
  exact (evaluateExpression_trace_independent 6 _ [(Vp, true); (Vq, false)] H).
Defined.

(* ================================================================= *)
(** ** The order of the entries of the assignment *)

Lemma replace_variable_cons (prev : bool) (v d c : codeunit) (r : jsstring) :
  replace_variable prev v d (c :: r)
  = (if N.eqb c v && negb prev && negb (head_word r) then d else c)
      :: replace_variable (is_word c) v d r.
Proof. destruct r; reflexivity. Qed.

(** Replacing a letter by a digit keeps word characters where they
    were. *)
Lemma replace_variable_head_word (prev : bool) (v d : codeunit)
  (w : jsstring) :
  is_word v = true -> is_word d = true ->
  head_word (replace_variable prev v d w) = head_word w.
Proof.
  intros Hv Hd. destruct w as [|c r]; [reflexivity|].
  rewrite replace_variable_cons. cbn [head_word].
  destruct (N.eqb c v) eqn:E; [|reflexivity].
  apply N.eqb_eq in E. subst c.
  destruct prev, (head_word r); cbn [andb negb]; congruence.
Qed.

Lemma replace_variable_comm (u v du dv : codeunit) (w : jsstring) :
  u <> v -> du <> v -> dv <> u ->
  is_word u = true -> is_word v = true ->
  is_word du = true -> is_word dv = true ->
  forall prev,
    replace_variable prev u du (replace_variable prev v dv w)
    = replace_variable prev v dv (replace_variable prev u du w).
Proof.
  intros Huv Hdu Hdv Wu Wv Wdu Wdv.
  induction w as [|c r IH]; intros prev; [reflexivity|].
  rewrite !(replace_variable_cons _ _ _ c r).
  rewrite !replace_variable_cons.
  rewrite !replace_variable_head_word by assumption.
  assert (Ev : is_word (if N.eqb c v && negb prev && negb (head_word r)
                        then dv else c) = is_word c).
  { destruct (N.eqb c v) eqn:E; [|reflexivity].
    apply N.eqb_eq in E. subst c.
    destruct prev, (head_word r); cbn [andb negb]; congruence. }
  assert (Eu : is_word (if N.eqb c u && negb prev && negb (head_word r)
                        then du else c) = is_word c).
  { destruct (N.eqb c u) eqn:E; [|reflexivity].
    apply N.eqb_eq in E. subst c.
    destruct prev, (head_word r); cbn [andb negb]; congruence. }
  rewrite Ev, Eu, IH. f_equal.
  destruct (negb prev && negb (head_word r)) eqn:E.
  - rewrite <- !andb_assoc, E, !andb_true_r.
    destruct (N.eqb_spec c v) as [->|Hcv].
    + rewrite (proj2 (N.eqb_neq dv u) Hdv).
      rewrite (proj2 (N.eqb_neq v u) (not_eq_sym Huv)).
      rewrite N.eqb_refl. reflexivity.
    + destruct (N.eqb_spec c u) as [->|Hcu].
      * rewrite (proj2 (N.eqb_neq du v) Hdu). reflexivity.
      * rewrite (proj2 (N.eqb_neq c v) Hcv). reflexivity.
  - rewrite <- !andb_assoc, E, !andb_false_r. reflexivity.
Qed.

Lemma name_is_word (v : Var) : is_word (name v) = true.
Proof. destruct v; reflexivity. Qed.

Lemma bit_char_is_word (b : bool) : is_word (bit_char b) = true.
Proof. destruct b; reflexivity. Qed.

Lemma substituted_swap (u v : Var) (a b : bool) (rest : Assignment)
  (w : jsstring) :
  u <> v ->
  substituted ((u, a) :: (v, b) :: rest) w
  = substituted ((v, b) :: (u, a) :: rest) w.
Proof.
  intros Huv. rewrite !substituted_cons. f_equal.
  apply replace_variable_comm;
    try apply name_is_word; try apply bit_char_is_word.
  - intros E. apply Huv. symmetry. apply name_inj, E.
  - intros E. exact (name_not_bit _ _ (eq_sym E)).
  - intros E. exact (name_not_bit _ _ (eq_sym E)).
Qed.

Lemma substituted_permutation (values values' : Assignment) :
  Permutation values values' ->
  NoDup (map fst values) ->
  forall w, substituted values w = substituted values' w.
Proof.
  induction 1 as [| [v b] l l' _ IH | [u a] [v b] l | l l' l'' H1 IH1 H2 IH2];
    intros Hnd w.
  - reflexivity.
  - rewrite !substituted_cons. apply IH.
    cbn [map fst] in Hnd. inversion Hnd; assumption.
  - apply substituted_swap. cbn [map fst] in Hnd.
    inversion Hnd as [|? ? Hnotin _]. intros ->. apply Hnotin. left.
    reflexivity.
  - rewrite IH1 by exact Hnd. apply IH2.
    apply (Permutation_NoDup (Permutation_map fst H1) Hnd).
Qed.

(** The result and the evaluation steps do not depend on the order in
    which the keys were put into the assignment (only the order of the
    records in [substitutionSteps] does). *)
Theorem evaluateExpression_assignment_order (fuel : nat)
  (expr : option jsstring) (values values' : Assignment)
  (includeSteps : bool) :
  Permutation values values' ->
  NoDup (map fst values) ->
  option_map outcome (evaluateExpression fuel expr values includeSteps)
  = option_map outcome (evaluateExpression fuel expr values' includeSteps).
Proof.
  intros Hp Hnd. destruct expr as [[|c e]|]; try reflexivity.
  rewrite !evaluateExpression_cons. cbv zeta.
  rewrite (substituted_permutation values values' Hp Hnd (c :: e)).
  destruct (paren_loop fuel fuel includeSteps _) as [[res2 pushedP]|];
    cbn [bind]; [|reflexivity].
  destruct (evaluateSubExpression fuel res2 _) as [[b st]|]; cbn [bind];
    [|reflexivity].
  destruct includeSteps; reflexivity.
Qed.

Lemma evaluateExpression_assignment_order_witness :
  (Permutation [(Vp, true); (Vq, false)] [(Vq, false); (Vp, true)]
   /\ NoDup (map fst [(Vp, true); (Vq, false)]))
  /\ option_map outcome
       (evaluateExpression 3 (Some [name Vp; c_impl; name Vq])
          [(Vp, true); (Vq, false)] true)
     = option_map outcome
         (evaluateExpression 3 (Some [name Vp; c_impl; name Vq])
            [(Vq, false); (Vp, true)] true).
Proof.
  assert (H1 : Permutation [(Vp, true); (Vq, false)]
                           [(Vq, false); (Vp, true)]) by apply perm_swap.
  assert (H2 : NoDup (map fst [(Vp, true); (Vq, false)])).
  { repeat constructor; simpl; intuition discriminate. }
  split; [split; assumption|].
  exact (evaluateExpression_assignment_order 3 _ _ _ true H1 H2).
Defined.

(* ================================================================= *)
(** ** Parentheses around a whole expression *)

Lemma replace_variable_snoc (v d c : codeunit) (body : jsstring) :
  is_word c = false -> c <> v ->
  forall prev,
    replace_variable prev v d (body ++ [c])
    = replace_variable prev v d body ++ [c].
Proof.
  intros Wc Hc. induction body as [|x r IH]; intros prev.
  - cbn [app]. rewrite replace_variable_cons.
    rewrite (proj2 (N.eqb_neq c v) Hc). reflexivity.
  - cbn [app]. rewrite !replace_variable_cons, IH.
    assert (Eh : head_word (r ++ [c]) = head_word r)
      by (destruct r; cbn [app head_word]; [exact Wc | reflexivity]).
    rewrite Eh. reflexivity.
Qed.

Lemma replace_variable_wrapped (v : Var) (d : codeunit) (body : jsstring) :
  replace_variable false (name v) d (c_lparen :: body ++ [c_rparen])
  = c_lparen :: replace_variable false (name v) d body ++ [c_rparen].
Proof.
  rewrite replace_variable_cons.
  rewrite replace_variable_snoc;
    [| reflexivity | destruct v; discriminate].
  replace (N.eqb c_lparen (name v)) with false by (destruct v; reflexivity).
  reflexivity.
Qed.

Lemma substituted_wrapped (values : Assignment) (body : jsstring) :
  substituted values (c_lparen :: body ++ [c_rparen])
  = c_lparen :: substituted values body ++ [c_rparen].
Proof.
  revert body. induction values as [|[v b] rest IH]; intros body;
    [reflexivity|].
  rewrite !substituted_cons, replace_variable_wrapped. apply IH.
Qed.

Lemma substituted_absent (u : codeunit) (values : Assignment) (e : jsstring) :
  is_bit u = false -> ~ In u e -> ~ In u (substituted values e).
Proof.
  intros Hu. revert e. induction values as [|[v b] rest IH]; intros e Hn;
    [exact Hn|].
  rewrite substituted_cons. apply IH. intros H.
  apply replace_variable_in in H. destruct H as [H | ->]; [exact (Hn H)|].
  rewrite bit_char_is_bit in Hu. discriminate.
Qed.

Lemma reduceSubExpression_digit (fuel : nat) (b : bool) :
  reduceSubExpression fuel [bit_char b] = Some ([bit_char b], []).
Proof. destruct fuel, b; reflexivity. Qed.

Lemma paren_loop_no_paren (fuel count : nat) (includeSteps : bool)
  (w : jsstring) :
  ~ In c_lparen w -> paren_loop fuel count includeSteps w = Some (w, []).
Proof.
  intros Hn. rewrite paren_loop_unfold.
  destruct (includes w [c_lparen]) eqn:E; [|reflexivity].
  apply includes_char in E. contradiction.
Qed.

(** A pair of parentheses around a whole expression that has no
    parenthesis of its own does not change what the call returns. *)
Theorem evaluateExpression_outer_parentheses (fuel : nat) (body : jsstring)
  (values : Assignment) :
  body <> [] ->
  ~ In c_lparen body -> ~ In c_rparen body ->
  length body + 2 <= fuel ->
  exists r,
    evaluateExpression fuel (Some body) values false = Some r
    /\ evaluateExpression fuel (Some (c_lparen :: body ++ [c_rparen]))
         values false = Some r.
Proof.
  intros Hne Hl Hr Hlen.
  destruct body as [|c0 body0] eqn:Eb; [congruence|]. rewrite <- Eb in *.
  assert (Hsl : length (substituted values body) = length body)
    by apply substituted_length.
  assert (Hsne : substituted values body <> []).
  { intros E. rewrite E, Eb in Hsl. discriminate. }
  pose proof (substituted_absent c_lparen values body eq_refl Hl) as Hsl'.
  pose proof (substituted_absent c_rparen values body eq_refl Hr) as Hsr'.
  destruct (evaluateSubExpression_total fuel (substituted values body) None)
    as (b & st & Es); [lia|].
  assert (Est : st = None).
  { unfold evaluateSubExpression in Es.
    destruct (reduceSubExpression fuel _) as [[f p]|]; cbn [bind] in Es;
      [|discriminate].
    injection Es as _ <-. reflexivity. }
  subst st.
  exists (mkResult b [] None None). split.
  - rewrite Eb at 1. rewrite evaluateExpression_cons. cbv zeta.
    rewrite <- Eb.
    rewrite (paren_loop_no_paren _ _ _ _ Hsl'). cbn [bind push_all].
    rewrite Es. reflexivity.
  - change (c_lparen :: body ++ [c_rparen])
      with (c_lparen :: (body ++ [c_rparen])).
    rewrite evaluateExpression_cons. cbv zeta.
    change (c_lparen :: (body ++ [c_rparen]))
      with (c_lparen :: body ++ [c_rparen]).
    rewrite substituted_wrapped.
    destruct fuel as [|fuel']; [lia|].
    rewrite paren_loop_unfold.
    replace (includes (c_lparen :: substituted values body ++ [c_rparen])
               [c_lparen]) with true
      by (symmetry; apply includes_char; left; reflexivity).
    cbn [negb].
    rewrite (paren_pass_match (S fuel') false (substituted values body) []
               Hsne Hsl' Hsr').
    rewrite Es. cbn [bind paren_pass flush].
    replace (str_eqb (c_lparen :: substituted values body ++ [c_rparen])
               [bit_char b]) with false.
    2:{ symmetry. apply str_eqb_neq. intros E. injection E as _ E.
        destruct (substituted values body); [congruence | discriminate]. }
    rewrite paren_loop_no_paren
      by (intros [H | []]; destruct b; discriminate).
    cbn [bind push_all]. unfold evaluateSubExpression.
    rewrite reduceSubExpression_digit. cbn [bind push_all].
    destruct b; reflexivity.
Qed.

Lemma evaluateExpression_outer_parentheses_witness :
  ([name Vp; c_or; name Vq] <> []
   /\ ~ In c_lparen [name Vp; c_or; name Vq]
   /\ ~ In c_rparen [name Vp; c_or; name Vq]
   /\ length [name Vp; c_or; name Vq] + 2 <= 5)
  /\ exists r,
       evaluateExpression 5 (Some [name Vp; c_or; name Vq])
         [(Vp, false); (Vq, true)] false = Some r
       /\ evaluateExpression 5
            (Some (c_lparen :: [name Vp; c_or; name Vq] ++ [c_rparen]))
            [(Vp, false); (Vq, true)] false = Some r.
Proof.
  assert (H1 : [name Vp; c_or; name Vq] <> []) by discriminate.
  assert (H2 : ~ In c_lparen [name Vp; c_or; name Vq])
    by (simpl; intuition discriminate).
  assert (H3 : ~ In c_rparen [name Vp; c_or; name Vq])
    by (simpl; intuition discriminate).
  assert (H4 : length [name Vp; c_or; name Vq] + 2 <= 5) by (simpl; lia).
  split; [repeat split; assumption|].
  exact (evaluateExpression_outer_parentheses 5 _
           [(Vp, false); (Vq, true)] H1 H2 H3 H4).
Defined.
